(** * Row-level security of the storybook schema

    A shallow embedding of the authorization core of the repository:
    the [stories] and [story_members] tables, the row-level-security
    policies that the three migrations under [supabase/migrations]
    leave installed, the [SECURITY DEFINER] helpers and the owner
    trigger, together with the two client routines that talk to these
    tables ([fetchStories] of the dashboard and [handleSubmit] of the
    story form). *)

From stdpp Require Import base decidable option numbers list sorting strings gmap.

#[local] Set Warnings "-clear-no-such-hyp".

Open Scope N_scope.
Open Scope nat_scope.

(** ** Data model *)

(** [UUID] and [TIMESTAMP WITH TIME ZONE] columns.  Only equality (and,
    for timestamps, order) is ever used on them. *)
Abbreviation uuid := N (only parsing).
Abbreviation timestamptz := N (only parsing).

(** [role TEXT ... CHECK (role IN ('owner', 'member'))] *)
Inductive member_role := owner | member.

#[global] Instance member_role_eq_dec : EqDecision member_role.
Proof. solve_decision. Defined.

(** A row of [public.stories]. *)
Record story := {
  id : uuid;
  title : string;
  description : option string;
  cover_image_url : option string;
  is_public : bool;
  created_by : uuid;
  created_at : timestamptz;
  updated_at : timestamptz
}.

(** A row of [public.story_members].  The surrogate key [id] and the
    [created_at] default of that table are filled by the server and are
    read by no policy, trigger or query below; the row is identified by
    the [UNIQUE(story_id, user_id)] pair. *)
Record story_member := {
  story_id : uuid;
  user_id : uuid;
  role : member_role
}.

#[global] Instance story_member_eq_dec : EqDecision story_member.
Proof. solve_decision. Defined.

(** The two tables. *)
Record db := {
  stories : list story;
  story_members : list story_member
}.

Definition empty_db : db := {| stories := []; story_members := [] |}.

(** The [(story_id, user_id)] key of the unique constraint. *)
Definition member_key (m : story_member) : uuid * uuid := (story_id m, user_id m).

(** ** SECURITY DEFINER helpers

    Both read the raw tables: a definer function is not subject to the
    caller's row-level security. *)

(** [SELECT EXISTS (SELECT 1 FROM public.stories s
     WHERE s.id = _story_id AND s.created_by = _user_id)] *)
Definition is_story_creator (d : db) (_story_id _user_id : uuid) : bool :=
  existsb (λ s, bool_decide (id s = _story_id) && bool_decide (created_by s = _user_id))
          (stories d).

(** [SELECT EXISTS (SELECT 1 FROM public.story_members sm
     WHERE sm.story_id = _story_id AND sm.user_id = _user_id
       AND sm.role = 'owner')] *)
Definition is_story_owner (d : db) (_story_id _user_id : uuid) : bool :=
  existsb (λ sm, bool_decide (story_id sm = _story_id)
                 && bool_decide (user_id sm = _user_id)
                 && bool_decide (role sm = owner))
          (story_members d).

(** ** Policies *)

Inductive command := SELECT | INSERT | UPDATE | DELETE.

#[global] Instance command_eq_dec : EqDecision command.
Proof. solve_decision. Defined.

(** A policy carries one expression: its [USING] clause (which, for
    [UPDATE], also checks the new row since no policy here has a
    separate [WITH CHECK]) or, for [INSERT], its [WITH CHECK] clause.
    [Src] is what the expression may read besides the row itself. *)
Record policy (Src Row : Type) := {
  polname : string;
  polcmd : command;
  polpermissive : bool;
  polqual : uuid -> Src -> Row -> bool
}.
Arguments polname {Src Row} _.
Arguments polcmd {Src Row} _.
Arguments polpermissive {Src Row} _.
Arguments polqual {Src Row} _ _ _ _.

(** Policies on [stories] read [story_members] through plain subqueries,
    which run as the caller: they see [story_members] through that
    table's own SELECT policies.  [Src] is that filtered list. *)
Definition stories_policy := policy (list story_member) story.

(** Policies on [story_members] of the last two migrations read other
    rows only through the definer helpers, hence the raw tables.  The
    first migration's policies query [story_members] from within its own
    policy; they are written against the raw table here, are what
    the second migration drops for their infinite recursion, and are
    never evaluated below. *)
Definition story_members_policy := policy db story_member.

(** [EXISTS (SELECT 1 FROM public.story_members sm
     WHERE sm.story_id = _id AND sm.user_id = auth.uid())] *)
Definition exists_membership (sms : list story_member) (_id auth_uid : uuid) : bool :=
  existsb (λ sm, bool_decide (story_id sm = _id) && bool_decide (user_id sm = auth_uid)) sms.

(** [EXISTS (SELECT 1 FROM public.story_members sm
     WHERE sm.story_id = _id AND sm.user_id = auth.uid()
       AND sm.role = 'owner')] *)
Definition exists_owner_membership (sms : list story_member) (_id auth_uid : uuid) : bool :=
  existsb (λ sm, bool_decide (story_id sm = _id)
                 && bool_decide (user_id sm = auth_uid)
                 && bool_decide (role sm = owner)) sms.

(** [id IN (SELECT story_id FROM public.story_members
            WHERE user_id = auth.uid())] *)
Definition id_in_my_story_ids (sms : list story_member) (_id auth_uid : uuid) : bool :=
  bool_decide (_id ∈ story_id <$> filter (λ sm, user_id sm = auth_uid) sms).

(** *** First migration (20260115205311) *)

Definition Users_can_view_memberships_for_their_stories : story_members_policy :=
  {| polname := "Users can view memberships for their stories";
     polcmd := SELECT; polpermissive := true;
     polqual := λ auth_uid d row,
       bool_decide (user_id row = auth_uid)
       || exists_membership (story_members d) (story_id row) auth_uid |}.

Definition Story_owners_can_manage_members : story_members_policy :=
  {| polname := "Story owners can manage members";
     polcmd := INSERT; polpermissive := true;
     polqual := λ auth_uid d row,
       exists_owner_membership (story_members d) (story_id row) auth_uid
       || (bool_decide (user_id row = auth_uid) && bool_decide (role row = owner)) |}.

Definition Story_owners_can_remove_members : story_members_policy :=
  {| polname := "Story owners can remove members";
     polcmd := DELETE; polpermissive := true;
     polqual := λ auth_uid d row,
       exists_owner_membership (story_members d) (story_id row) auth_uid |}.

Definition Users_can_view_their_stories_or_public_stories : stories_policy :=
  {| polname := "Users can view their stories or public stories";
     polcmd := SELECT; polpermissive := true;
     polqual := λ auth_uid sms row,
       bool_decide (is_public row = true) || exists_membership sms (id row) auth_uid |}.

Definition Authenticated_users_can_create_stories : stories_policy :=
  {| polname := "Authenticated users can create stories";
     polcmd := INSERT; polpermissive := true;
     polqual := λ auth_uid _ row, bool_decide (auth_uid = created_by row) |}.

Definition Story_owners_can_update_their_stories : stories_policy :=
  {| polname := "Story owners can update their stories";
     polcmd := UPDATE; polpermissive := true;
     polqual := λ auth_uid sms row, exists_owner_membership sms (id row) auth_uid |}.

Definition Story_owners_can_delete_their_stories : stories_policy :=
  {| polname := "Story owners can delete their stories";
     polcmd := DELETE; polpermissive := true;
     polqual := λ auth_uid sms row, exists_owner_membership sms (id row) auth_uid |}.

(** *** Second migration (20260119200546) *)

Definition Users_can_view_their_own_memberships : story_members_policy :=
  {| polname := "Users can view their own memberships";
     polcmd := SELECT; polpermissive := true;
     polqual := λ auth_uid _ row, bool_decide (auth_uid = user_id row) |}.

Definition Story_owners_can_insert_members : story_members_policy :=
  {| polname := "Story owners can insert members";
     polcmd := INSERT; polpermissive := true;
     polqual := λ auth_uid d row,
       (bool_decide (user_id row = auth_uid)
        && bool_decide (role row = owner)
        && is_story_creator d (story_id row) auth_uid)
       || is_story_owner d (story_id row) auth_uid |}.

Definition Story_owners_can_delete_members : story_members_policy :=
  {| polname := "Story owners can delete members";
     polcmd := DELETE; polpermissive := true;
     polqual := λ auth_uid d row, is_story_owner d (story_id row) auth_uid |}.

(** *** Third migration (20260119203607) *)

Definition Creators_can_insert_their_owner_membership : story_members_policy :=
  {| polname := "Creators can insert their owner membership";
     polcmd := INSERT; polpermissive := true;
     polqual := λ auth_uid d row,
       bool_decide (user_id row = auth_uid)
       && bool_decide (role row = owner)
       && is_story_creator d (story_id row) auth_uid |}.

Definition Users_can_view_public_stories_or_their_stories : stories_policy :=
  {| polname := "Users can view public stories or their stories";
     polcmd := SELECT; polpermissive := true;
     polqual := λ auth_uid sms row,
       bool_decide (is_public row = true) || id_in_my_story_ids sms (id row) auth_uid |}.

Definition Members_can_target_their_stories_base : stories_policy :=
  {| polname := "Members can target their stories (base)";
     polcmd := UPDATE; polpermissive := true;
     polqual := λ auth_uid sms row,
       bool_decide (is_public row = true) || id_in_my_story_ids sms (id row) auth_uid |}.

Definition Members_can_target_their_stories_for_delete_base : stories_policy :=
  {| polname := "Members can target their stories for delete (base)";
     polcmd := DELETE; polpermissive := true;
     polqual := λ auth_uid sms row,
       bool_decide (is_public row = true) || id_in_my_story_ids sms (id row) auth_uid |}.

Definition Only_owners_can_update_stories : stories_policy :=
  {| polname := "Only owners can update stories";
     polcmd := UPDATE; polpermissive := false;
     polqual := λ auth_uid sms row, exists_owner_membership sms (id row) auth_uid |}.

Definition Only_owners_can_delete_stories : stories_policy :=
  {| polname := "Only owners can delete stories";
     polcmd := DELETE; polpermissive := false;
     polqual := λ auth_uid sms row, exists_owner_membership sms (id row) auth_uid |}.

(** ** The policy catalog and the migrations that build it *)

Record catalog := {
  pol_stories : list stories_policy;
  pol_story_members : list story_members_policy
}.

Definition empty_catalog : catalog := {| pol_stories := []; pol_story_members := [] |}.

Inductive table := public_stories | public_story_members.

Inductive ddl :=
| CREATE_POLICY_ON_stories (p : stories_policy)
| CREATE_POLICY_ON_story_members (p : story_members_policy)
| DROP_POLICY_IF_EXISTS (name : string) (t : table).

Definition has_policy {Src Row} (name : string) (ps : list (policy Src Row)) : bool :=
  existsb (λ p, String.eqb (polname p) name) ps.

Definition drop_policy {Src Row} (name : string) (ps : list (policy Src Row))
  : list (policy Src Row) :=
  List.filter (λ p, negb (String.eqb (polname p) name)) ps.

(** [CREATE POLICY] fails when the table already has a policy of that
    name; [DROP POLICY IF EXISTS] never fails. *)
Definition exec_ddl (c : catalog) (stmt : ddl) : option catalog :=
  match stmt with
  | CREATE_POLICY_ON_stories p =>
      if has_policy (polname p) (pol_stories c) then None
      else Some {| pol_stories := pol_stories c ++ [p];
                   pol_story_members := pol_story_members c |}
  | CREATE_POLICY_ON_story_members p =>
      if has_policy (polname p) (pol_story_members c) then None
      else Some {| pol_stories := pol_stories c;
                   pol_story_members := pol_story_members c ++ [p] |}
  | DROP_POLICY_IF_EXISTS name public_stories =>
      Some {| pol_stories := drop_policy name (pol_stories c);
              pol_story_members := pol_story_members c |}
  | DROP_POLICY_IF_EXISTS name public_story_members =>
      Some {| pol_stories := pol_stories c;
              pol_story_members := drop_policy name (pol_story_members c) |}
  end.

Fixpoint exec_migration (c : catalog) (stmts : list ddl) : option catalog :=
  match stmts with
  | [] => Some c
  | stmt :: rest =>
      match exec_ddl c stmt with
      | Some c' => exec_migration c' rest
      | None => None
      end
  end.

(** The policy statements on the two tables, in file order. *)
Definition migration_20260115205311 : list ddl := [
  CREATE_POLICY_ON_story_members Users_can_view_memberships_for_their_stories;
  CREATE_POLICY_ON_story_members Story_owners_can_manage_members;
  CREATE_POLICY_ON_story_members Story_owners_can_remove_members;
  CREATE_POLICY_ON_stories Users_can_view_their_stories_or_public_stories;
  CREATE_POLICY_ON_stories Authenticated_users_can_create_stories;
  CREATE_POLICY_ON_stories Story_owners_can_update_their_stories;
  CREATE_POLICY_ON_stories Story_owners_can_delete_their_stories
].

Definition migration_20260119200546 : list ddl := [
  DROP_POLICY_IF_EXISTS "Users can view memberships for their stories" public_story_members;
  DROP_POLICY_IF_EXISTS "Story owners can manage members" public_story_members;
  DROP_POLICY_IF_EXISTS "Story owners can remove members" public_story_members;
  CREATE_POLICY_ON_story_members Users_can_view_their_own_memberships;
  CREATE_POLICY_ON_story_members Story_owners_can_insert_members;
  CREATE_POLICY_ON_story_members Story_owners_can_delete_members;
  DROP_POLICY_IF_EXISTS "Story owners can update their stories" public_stories;
  DROP_POLICY_IF_EXISTS "Story owners can delete their stories" public_stories;
  CREATE_POLICY_ON_stories Story_owners_can_update_their_stories;
  CREATE_POLICY_ON_stories Story_owners_can_delete_their_stories
].

Definition migration_20260119203607 : list ddl := [
  DROP_POLICY_IF_EXISTS "Users can view memberships for their stories" public_story_members;
  DROP_POLICY_IF_EXISTS "Users can view their own memberships" public_story_members;
  DROP_POLICY_IF_EXISTS "Story owners can manage members" public_story_members;
  DROP_POLICY_IF_EXISTS "Story owners can insert members" public_story_members;
  DROP_POLICY_IF_EXISTS "Story owners can remove members" public_story_members;
  DROP_POLICY_IF_EXISTS "Story owners can delete members" public_story_members;
  DROP_POLICY_IF_EXISTS "Creators can insert their owner membership" public_story_members;
  CREATE_POLICY_ON_story_members Users_can_view_their_own_memberships;
  CREATE_POLICY_ON_story_members Creators_can_insert_their_owner_membership;
  DROP_POLICY_IF_EXISTS "Users can view their stories or public stories" public_stories;
  DROP_POLICY_IF_EXISTS "Users can view public stories or their stories" public_stories;
  DROP_POLICY_IF_EXISTS "Story owners can update their stories" public_stories;
  DROP_POLICY_IF_EXISTS "Story owners can delete their stories" public_stories;
  DROP_POLICY_IF_EXISTS "Members can target their stories (base)" public_stories;
  DROP_POLICY_IF_EXISTS "Members can target their stories for delete (base)" public_stories;
  DROP_POLICY_IF_EXISTS "Only owners can update stories" public_stories;
  DROP_POLICY_IF_EXISTS "Only owners can delete stories" public_stories;
  CREATE_POLICY_ON_stories Users_can_view_public_stories_or_their_stories;
  CREATE_POLICY_ON_stories Members_can_target_their_stories_base;
  CREATE_POLICY_ON_stories Members_can_target_their_stories_for_delete_base;
  CREATE_POLICY_ON_stories Only_owners_can_update_stories;
  CREATE_POLICY_ON_stories Only_owners_can_delete_stories
].

Definition migrations : list ddl :=
  migration_20260115205311 ++ migration_20260119200546 ++ migration_20260119203607.

(** The catalog once the three migrations have run, in order (see
    [migrations_succeed]). *)
Definition schema : catalog :=
  {| pol_stories := [ Authenticated_users_can_create_stories;
                      Users_can_view_public_stories_or_their_stories;
                      Members_can_target_their_stories_base;
                      Members_can_target_their_stories_for_delete_base;
                      Only_owners_can_update_stories;
                      Only_owners_can_delete_stories ];
     pol_story_members := [ Users_can_view_their_own_memberships;
                            Creators_can_insert_their_owner_membership ] |}.

(** ** Row-level security evaluation *)

(** A row passes for a command when some permissive policy for that
    command accepts it and every restrictive one does; with no
    permissive policy nothing passes. *)
Definition rls_check {Src Row} (ps : list (policy Src Row)) (cmd : command)
    (auth_uid : uuid) (src : Src) (row : Row) : bool :=
  let applicable := filter (λ p, polcmd p = cmd) ps in
  existsb (λ p, polqual p auth_uid src row)
          (filter (λ p, polpermissive p = true) applicable)
  && forallb (λ p, polqual p auth_uid src row)
             (filter (λ p, polpermissive p = false) applicable).

Definition member_rls (cat : catalog) (cmd : command) (auth_uid : uuid) (d : db)
    (row : story_member) : bool :=
  rls_check (pol_story_members cat) cmd auth_uid d row.

(** What [FROM public.story_members] yields to the caller. *)
Definition visible_story_members (cat : catalog) (auth_uid : uuid) (d : db)
  : list story_member :=
  filter (λ m, member_rls cat SELECT auth_uid d m = true) (story_members d).

Definition story_rls (cat : catalog) (cmd : command) (auth_uid : uuid) (d : db)
    (row : story) : bool :=
  rls_check (pol_stories cat) cmd auth_uid (visible_story_members cat auth_uid d) row.

(** ** Statements *)

Inductive sqlstate :=
| insufficient_privilege   (* 42501: new row violates row-level security policy *)
| unique_violation         (* 23505 *)
| foreign_key_violation.   (* 23503 *)

Inductive result (A : Type) :=
| Ok (a : A)
| Err (e : sqlstate).
Arguments Ok {A} _.
Arguments Err {A} _.

(** Trigger function of [create_owner_membership_on_story_insert]:
    [INSERT INTO public.story_members (story_id, user_id, role)
     VALUES (NEW.id, NEW.created_by, 'owner')
     ON CONFLICT (story_id, user_id) DO NOTHING].
    It is [SECURITY DEFINER]: no policy is consulted. *)
Definition handle_new_story_owner_membership (NEW : story) (d : db) : db :=
  let row := {| story_id := id NEW; user_id := created_by NEW; role := owner |} in
  if bool_decide (member_key row ∈ member_key <$> story_members d) then d
  else {| stories := stories d; story_members := story_members d ++ [row] |}.

(** [BEFORE UPDATE] trigger of [stories]: [NEW.updated_at = now()]. *)
Definition update_updated_at_column (now : timestamptz) (NEW : story) : story :=
  {| id := id NEW; title := title NEW; description := description NEW;
     cover_image_url := cover_image_url NEW; is_public := is_public NEW;
     created_by := created_by NEW; created_at := created_at NEW;
     updated_at := now |}.

(** [INSERT INTO stories]: the INSERT policies check the new row, the
    primary key rejects a used [id], and the [AFTER INSERT] trigger runs
    in the same statement. *)
Definition insert_stories (cat : catalog) (auth_uid : uuid) (NEW : story) (d : db)
  : result db :=
  if negb (story_rls cat INSERT auth_uid d NEW) then Err insufficient_privilege
  else if bool_decide (id NEW ∈ id <$> stories d) then Err unique_violation
  else Ok (handle_new_story_owner_membership NEW
             {| stories := stories d ++ [NEW]; story_members := story_members d |}).

(** [INSERT INTO stories ... RETURNING *] (the client's
    [.insert(..).select()]): the row to return must also pass the SELECT
    policies.  PostgreSQL applies them to the new row as a further
    check, together with the INSERT policies: before the row is stored,
    hence before the primary key is looked at and before the
    [AFTER INSERT] trigger has written the owner row.  A private story
    of somebody who has no membership under that id is refused, and
    nothing is written; the trigger, meant to "avoid INSERT ...
    RETURNING being blocked by SELECT RLS", runs too late for that. *)
Definition insert_stories_returning (cat : catalog) (auth_uid : uuid) (NEW : story)
    (d : db) : result (db * story) :=
  if negb (story_rls cat SELECT auth_uid d NEW) then Err insufficient_privilege
  else
    match insert_stories cat auth_uid NEW d with
    | Ok d' => Ok (d', NEW)
    | Err e => Err e
    end.

(** [INSERT INTO story_members], a plain insert (no [ON CONFLICT]). *)
Definition insert_story_members (cat : catalog) (auth_uid : uuid) (NEW : story_member)
    (d : db) : result db :=
  if negb (member_rls cat INSERT auth_uid d NEW) then Err insufficient_privilege
  else if bool_decide (member_key NEW ∈ member_key <$> story_members d)
       then Err unique_violation
  else if negb (bool_decide (story_id NEW ∈ id <$> stories d))
       then Err foreign_key_violation
  else Ok {| stories := stories d; story_members := story_members d ++ [NEW] |}.

(** [DELETE FROM story_members WHERE story_id = .. AND user_id = ..]:
    only rows that the caller can see and that pass the DELETE policies
    are removed; the others are silently skipped. *)
Definition delete_story_members_target (cat : catalog) (auth_uid : uuid)
    (_story_id _user_id : uuid) (d : db) (m : story_member) : bool :=
  bool_decide (story_id m = _story_id) && bool_decide (user_id m = _user_id)
  && member_rls cat SELECT auth_uid d m && member_rls cat DELETE auth_uid d m.

Definition delete_story_members (cat : catalog) (auth_uid : uuid)
    (_story_id _user_id : uuid) (d : db) : db * nat :=
  let target := delete_story_members_target cat auth_uid _story_id _user_id d in
  ({| stories := stories d;
      story_members := filter (λ m, target m = false) (story_members d) |},
   length (filter (λ m, target m = true) (story_members d))).

(** [UPDATE stories SET .. WHERE id = ..]: the rows touched are those
    the caller can see and that pass the UPDATE policies; [set] is the
    SET clause and the [BEFORE UPDATE] trigger stamps [updated_at].  No
    policy has a [WITH CHECK] of its own, so the new rows must pass the
    same expressions; the primary key must stay unique; and, the foreign
    key of [story_members] having no [ON UPDATE] action, its rows must
    still reference a story.  [auth.users] is not one of the two tables
    kept here, so the foreign key of [created_by] to it is not checked:
    a SET that moves [created_by] to an id that is no user is accepted
    here and refused (23503) by the database.  Every success of the
    database is a success here, not the other way round. *)
Definition update_stories_target (cat : catalog) (auth_uid : uuid) (_id : uuid) (d : db)
    (s : story) : bool :=
  bool_decide (id s = _id) && story_rls cat SELECT auth_uid d s
  && story_rls cat UPDATE auth_uid d s.

Definition update_stories (cat : catalog) (auth_uid : uuid) (_id : uuid)
    (set : story -> story) (now : timestamptz) (d : db) : result (db * nat) :=
  let target := update_stories_target cat auth_uid _id d in
  let new s := update_updated_at_column now (set s) in
  let stories' := (λ s, if target s then new s else s) <$> stories d in
  if negb (forallb (λ s, story_rls cat UPDATE auth_uid d (new s)
                         && story_rls cat SELECT auth_uid d (new s))
                   (filter (λ s, target s = true) (stories d)))
  then Err insufficient_privilege
  else if negb (bool_decide (NoDup (id <$> stories'))) then Err unique_violation
  else if negb (forallb (λ m, bool_decide (story_id m ∈ id <$> stories'))
                        (story_members d))
       then Err foreign_key_violation
  else Ok ({| stories := stories'; story_members := story_members d |},
           length (filter (λ s, target s = true) (stories d))).

(** [DELETE FROM stories WHERE id = ..]; [story_members.story_id] is
    declared [ON DELETE CASCADE]. *)
Definition delete_stories_target (cat : catalog) (auth_uid : uuid) (_id : uuid) (d : db)
    (s : story) : bool :=
  bool_decide (id s = _id) && story_rls cat SELECT auth_uid d s
  && story_rls cat DELETE auth_uid d s.

Definition delete_stories (cat : catalog) (auth_uid : uuid) (_id : uuid) (d : db)
  : db * nat :=
  let target := delete_stories_target cat auth_uid _id d in
  let deleted := filter (λ s, target s = true) (stories d) in
  ({| stories := filter (λ s, target s = false) (stories d);
      story_members := filter (λ m, story_id m ∉ id <$> deleted) (story_members d) |},
   length deleted).

(** [SELECT * FROM stories WHERE id = ..] *)
Definition select_stories (cat : catalog) (auth_uid : uuid) (_id : uuid) (d : db)
  : list story :=
  filter (λ s, id s = _id ∧ story_rls cat SELECT auth_uid d s = true) (stories d).

(** [SELECT * FROM story_members WHERE story_id = ..] *)
Definition select_story_members (cat : catalog) (auth_uid : uuid) (_story_id : uuid)
    (d : db) : list story_member :=
  filter (λ m, story_id m = _story_id) (visible_story_members cat auth_uid d).

(** ** Requests of an authenticated caller *)

Inductive request :=
| INSERT_INTO_stories (NEW : story) (returning : bool)
| INSERT_INTO_story_members (NEW : story_member)
| DELETE_FROM_story_members (_story_id _user_id : uuid)
| UPDATE_stories (_id : uuid) (set : story -> story) (now : timestamptz)
| DELETE_FROM_stories (_id : uuid)
| SELECT_FROM_stories (_id : uuid)
| SELECT_FROM_story_members (_story_id : uuid).

Inductive response :=
| stories_rows (rows : list story)
| story_members_rows (rows : list story_member)
| affected (n : nat)
| error (e : sqlstate).

(** A failed statement is rolled back: the tables are unchanged. *)
Definition exec (cat : catalog) (auth_uid : uuid) (req : request) (d : db)
  : db * response :=
  match req with
  | INSERT_INTO_stories NEW false =>
      match insert_stories cat auth_uid NEW d with
      | Ok d' => (d', affected 1)
      | Err e => (d, error e)
      end
  | INSERT_INTO_stories NEW true =>
      match insert_stories_returning cat auth_uid NEW d with
      | Ok (d', row) => (d', stories_rows [row])
      | Err e => (d, error e)
      end
  | INSERT_INTO_story_members NEW =>
      match insert_story_members cat auth_uid NEW d with
      | Ok d' => (d', affected 1)
      | Err e => (d, error e)
      end
  | DELETE_FROM_story_members _story_id _user_id =>
      let '(d', n) := delete_story_members cat auth_uid _story_id _user_id d in
      (d', affected n)
  | UPDATE_stories _id set now =>
      match update_stories cat auth_uid _id set now d with
      | Ok (d', n) => (d', affected n)
      | Err e => (d, error e)
      end
  | DELETE_FROM_stories _id =>
      let '(d', n) := delete_stories cat auth_uid _id d in
      (d', affected n)
  | SELECT_FROM_stories _id => (d, stories_rows (select_stories cat auth_uid _id d))
  | SELECT_FROM_story_members _story_id =>
      (d, story_members_rows (select_story_members cat auth_uid _story_id d))
  end.

(** States reachable from the empty tables by requests of any callers. *)
Inductive reachable : db -> Prop :=
| reachable_empty : reachable empty_db
| reachable_exec d auth_uid req :
    reachable d -> reachable (exec schema auth_uid req d).1.

(** ** Client routines *)

(** [Dashboard.tsx], [fetchStories].  [user.id] is the identity of the
    authenticated session, the same value the policies read as
    [auth.uid()]. *)

(** [memberCounts[m.story_id] = (memberCounts[m.story_id] || 0) + 1] *)
Definition memberCounts_add (memberCounts : gmap N nat) (story_id : uuid) : gmap N nat :=
  <[story_id := default 0 (memberCounts !! story_id) + 1]> memberCounts.

(** [memberCounts[story.id] || 1]: a missing entry and [0] are falsy. *)
Definition or_1 (count : option nat) : nat :=
  match count with
  | Some (S n) => S n
  | _ => 1
  end.

(** [.order('created_at', { ascending: false })] *)
Definition created_at_descending (a b : story) : Prop := (created_at b ≤ created_at a)%N.

#[global] Instance created_at_descending_dec a b : Decision (created_at_descending a b).
Proof. unfold created_at_descending. apply _. Defined.

Definition fetchStories (user : uuid) (d : db) : list (story * nat) :=
  let memberData :=
    story_id <$> filter (λ m, user_id m = user) (visible_story_members schema user d) in
  if bool_decide (length memberData = 0) then []
  else
    let storyIds := memberData in
    let storiesData :=
      merge_sort created_at_descending
        (filter (λ s, id s ∈ storyIds ∧ story_rls schema SELECT user d s = true)
                (stories d)) in
    let allMembers :=
      story_id <$> filter (λ m, story_id m ∈ storyIds)
                          (visible_story_members schema user d) in
    let memberCounts := foldl memberCounts_add ∅ allMembers in
    (λ story, (story, or_1 (memberCounts !! id story))) <$> storiesData.

(** [CreateStory.tsx], [handleSubmit], from "Create the story" on.  The
    cover upload goes to the storage bucket and only yields
    [coverImageUrl]; [gen_random_uuid] and [now] are the column defaults
    the server fills in. *)
Inductive toast :=
| Story_created (story_id : uuid)
| Error_creating_story (e : sqlstate).

Definition handleSubmit (user : uuid) (title' description' : string) (isPublic : bool)
    (coverImageUrl : option string) (gen_random_uuid now : N) (d : db) : db * toast :=
  let NEW := {| id := gen_random_uuid; title := title';
                description := if bool_decide (description' = EmptyString) then None
                               else Some description';
                cover_image_url := coverImageUrl; is_public := isPublic;
                created_by := user; created_at := now; updated_at := now |} in
  match insert_stories_returning schema user NEW d with
  | Err storyError => (d, Error_creating_story storyError)
  | Ok (d1, story) =>
      (* Add creator as owner *)
      match insert_story_members schema user
              {| story_id := id story; user_id := user; role := owner |} d1 with
      | Err memberError => (d1, Error_creating_story memberError)
      | Ok d2 => (d2, Story_created (id story))
      end
  end.

(** ** Table constraints and the properties under study *)

(** [id UUID PRIMARY KEY] of [stories]. *)
Definition primary_key (d : db) : Prop := NoDup (id <$> stories d).

(** [UNIQUE(story_id, user_id)] of [story_members]. *)
Definition unique_membership (d : db) : Prop := NoDup (member_key <$> story_members d).

(** [story_id UUID REFERENCES public.stories(id)]. *)
Definition foreign_key (d : db) : Prop :=
  ∀ m, m ∈ story_members d → story_id m ∈ id <$> stories d.

Definition constraints (d : db) : Prop :=
  primary_key d ∧ unique_membership d ∧ foreign_key d.

(** Every story has an owner row. *)
Definition has_owner (d : db) : Prop :=
  ∀ s, s ∈ stories d → ∃ m, m ∈ story_members d ∧ story_id m = id s ∧ role m = owner.

(** The view decision: the SELECT policies of [stories]. *)
Definition canView (d : db) (caller : uuid) (R : story) : bool :=
  story_rls schema SELECT caller d R.

(** The manage-members decision.  The migrations have no object of
    that name; the rule it stands for, "the caller has a membership row
    with role owner on the story", is the body of the helper
    [is_story_owner].  The member policies of the second migration call
    that helper; the last migration drops those policies and leaves the
    function in place, called by no policy. *)
Definition canManageMembers (d : db) (caller _id : uuid) : bool :=
  is_story_owner d _id caller.

(** The add-member decision: the INSERT policies of [story_members]. *)
Definition canInsertMember (d : db) (caller : uuid) (row : story_member) : bool :=
  member_rls schema INSERT caller d row.

(** The remove-member decision: the DELETE policies of [story_members]. *)
Definition canDeleteMember (d : db) (caller : uuid) (row : story_member) : bool :=
  member_rls schema DELETE caller d row.

(** The update and delete decisions: the UPDATE, respectively DELETE,
    policies of [stories]. *)
Definition canUpdate (d : db) (caller : uuid) (R : story) : bool :=
  story_rls schema UPDATE caller d R.

Definition canDelete (d : db) (caller : uuid) (R : story) : bool :=
  story_rls schema DELETE caller d R.

(** A membership row of [caller] on story [_id], of any role. *)
Definition is_member (d : db) (_id caller : uuid) : Prop :=
  ∃ m, m ∈ story_members d ∧ story_id m = _id ∧ user_id m = caller.

(** A membership row of [caller] on story [_id] with role [owner]. *)
Definition is_owner (d : db) (_id caller : uuid) : Prop :=
  ∃ m, m ∈ story_members d ∧ story_id m = _id ∧ user_id m = caller ∧ role m = owner.

(** The story [_id] is recorded as created by [caller]. *)
Definition is_creator (d : db) (_id caller : uuid) : Prop :=
  ∃ s, s ∈ stories d ∧ id s = _id ∧ created_by s = caller.

(** The tables with story [X] absent (its memberships go with it). *)
Definition without_story (X : uuid) (d : db) : db :=
  {| stories := filter (λ s, id s ≠ X) (stories d);
     story_members := filter (λ m, story_id m ≠ X) (story_members d) |}.

(** Requests that operate on the story [X]; creating a story is not one
    of them. *)
Definition on_story (X : uuid) (req : request) : Prop :=
  match req with
  | INSERT_INTO_stories _ _ => False
  | INSERT_INTO_story_members NEW => story_id NEW = X
  | DELETE_FROM_story_members _story_id _ => _story_id = X
  | UPDATE_stories _id _ _ => _id = X
  | DELETE_FROM_stories _id => _id = X
  | SELECT_FROM_stories _id => _id = X
  | SELECT_FROM_story_members _story_id => _story_id = X
  end.

(** What a caller observes of a denied request: no row, nothing
    affected, or the row-level-security error. *)
Definition forbidden (r : response) : bool :=
  match r with
  | stories_rows [] => true
  | story_members_rows [] => true
  | affected 0 => true
  | error insufficient_privilege => true
  | _ => false
  end.

(** The table constraints together with the ownership property. *)
Definition invariant (d : db) : Prop := constraints d ∧ has_owner d.


(** The request was denied: the caller got no row, no affected row or
    the row-level-security error. *)
Definition denied (d : db) (caller : uuid) (req : request) : Prop :=
  forbidden (exec schema caller req d).2 = true.


(** ** Sample tables used by the examples *)

Definition sample_story (_id creator : uuid) (public : bool) : story :=
  {| id := _id; title := "Trip"; description := None; cover_image_url := None;
     is_public := public; created_by := creator; created_at := 0%N; updated_at := 0%N |}.

(** User 10 created the private story 1 and is its owner. *)
Definition trip_db : db :=
  {| stories := [sample_story 1 10 false];
     story_members := [{| story_id := 1; user_id := 10; role := owner |}] |}.

(** User 10 creates the private story 1, then tries to remove their own
    owner row, then user 20 tries to join. *)
Definition trip_history : db :=
  (exec schema 20 (INSERT_INTO_story_members {| story_id := 1; user_id := 20; role := member |})
     (exec schema 10 (DELETE_FROM_story_members 1 10)
        (exec schema 10 (INSERT_INTO_stories (sample_story 1 10 false) false) empty_db).1).1).1.

(** The private story 1 has three members; user 20 is one of them. *)
Definition crowded_db : db :=
  {| stories := [sample_story 1 10 false];
     story_members := [{| story_id := 1; user_id := 10; role := owner |};
                       {| story_id := 1; user_id := 20; role := member |};
                       {| story_id := 1; user_id := 30; role := member |}] |}.


(** ** The catalog between the second and the third migration *)

(** What the first two migrations leave installed (see
    [migrations_before_last]).  Owners may then insert and delete
    membership rows. *)
Definition schema_20260119200546 : catalog :=
  {| pol_stories := [ Users_can_view_their_stories_or_public_stories;
                      Authenticated_users_can_create_stories;
                      Story_owners_can_update_their_stories;
                      Story_owners_can_delete_their_stories ];
     pol_story_members := [ Users_can_view_their_own_memberships;
                            Story_owners_can_insert_members;
                            Story_owners_can_delete_members ] |}.

(** ** The story page *)

(** The tables the migrations name, and the foreign keys the first
    migration declares between them (its lines 4, 37, 48 and 49), under
    the names PostgreSQL gives an unnamed column constraint,
    [<table>_<column>_fkey]; the member query below refers to the last
    of them by that name. *)
Inductive relation := rel_auth_users | rel_profiles | rel_stories | rel_story_members.

#[global] Instance relation_eq_dec : EqDecision relation.
Proof. solve_decision. Defined.

Record foreign_key_constraint := {
  conname : string;
  conrelid : relation;     (* the referencing table *)
  confrelid : relation     (* the referenced table *)
}.

Definition foreign_key_constraints : list foreign_key_constraint := [
  {| conname := "profiles_user_id_fkey";
     conrelid := rel_profiles; confrelid := rel_auth_users |};
  {| conname := "stories_created_by_fkey";
     conrelid := rel_stories; confrelid := rel_auth_users |};
  {| conname := "story_members_story_id_fkey";
     conrelid := rel_story_members; confrelid := rel_stories |};
  {| conname := "story_members_user_id_fkey";
     conrelid := rel_story_members; confrelid := rel_auth_users |}
].

(** An embedded resource [target!hint(..)] in a select on [source]: the
    API joins the two tables along a foreign key between them, the hint
    picking it by name; when there is none the request fails. *)
Definition embed_relationship (source target : relation) (hint : string)
  : option foreign_key_constraint :=
  List.find (λ fk, String.eqb (conname fk) hint
                   && (bool_decide (conrelid fk = source ∧ confrelid fk = target)
                       || bool_decide (conrelid fk = target ∧ confrelid fk = source)))
            foreign_key_constraints.

(** [StoryDetail], [fetchStoryDetails].  The member query embeds
    [profile:profiles!story_members_user_id_fkey(display_name,
    avatar_url)]; where the embed resolves, its display columns are
    carried along per row and decide neither which rows come back nor
    [isOwner]. *)
Inductive story_page :=
| Error_loading_story
| Story_loaded (story' : story) (members : list story_member) (isOwner : bool).

(** [.single()]: the one row of the result, an error for any other
    number of rows. *)
Definition single {A} (rows : list A) : option A :=
  match rows with
  | [row] => Some row
  | _ => None
  end.

Definition fetchStoryDetails (user id' : uuid) (d : db) : story_page :=
  match single (select_stories schema user id' d) with
  | None => Error_loading_story                      (* throw storyError *)
  | Some storyData =>
      match embed_relationship rel_story_members rel_profiles
              "story_members_user_id_fkey" with
      | None => Error_loading_story                  (* throw membersError *)
      | Some _ =>
          let membersData := select_story_members schema user id' d in
          let transformedMembers := membersData in
          (* Check if current user is owner *)
          let currentMember :=
            List.find (λ m, bool_decide (user_id m = user)) transformedMembers in
          Story_loaded storyData transformedMembers
            (match currentMember with
             | Some m => bool_decide (role m = owner)
             | None => false
             end)
      end
  end.

(** ** Profiles *)

(** The columns of [auth.users] that [handle_new_user] reads:
    [NEW.id], [NEW.email] and the text fields of
    [NEW.raw_user_meta_data]. *)
Record auth_user := {
  au_id : uuid;
  email : option string;
  raw_user_meta_data : gmap string string
}.

(** A row of [public.profiles], without its server-filled [id] and
    timestamps: [user_id ... NOT NULL UNIQUE], [display_name TEXT NOT
    NULL], [avatar_url TEXT]. *)
Record profile := {
  p_user_id : uuid;
  display_name : string;
  avatar_url : option string
}.

Inductive handle_new_user_outcome :=
| profile_inserted (profiles : list profile)
| not_null_violation_display_name   (* 23502 *)
| unique_violation_user_id.         (* 23505 *)

(** [COALESCE(a, b)] *)
Definition COALESCE {A} (a b : option A) : option A :=
  match a with
  | Some _ => a
  | None => b
  end.

(** [INSERT INTO public.profiles (user_id, display_name)
     VALUES (NEW.id, COALESCE(NEW.raw_user_meta_data->>'display_name',
                              NEW.email))], a plain insert. *)
Definition handle_new_user (NEW : auth_user) (profiles : list profile)
  : handle_new_user_outcome :=
  match COALESCE (raw_user_meta_data NEW !! "display_name") (email NEW) with
  | None => not_null_violation_display_name
  | Some name =>
      if bool_decide (au_id NEW ∈ p_user_id <$> profiles) then unique_violation_user_id
      else profile_inserted
             (profiles ++ [{| p_user_id := au_id NEW; display_name := name;
                              avatar_url := None |}])
  end.

(** * Theorems *)

(** ** The installed policies *)

(** Running the three migrations in order succeeds and leaves exactly
    the policies of [schema]: of the policies on [story_members] only
    the self-scoped SELECT policy and the creator INSERT policy remain. *)
Lemma migrations_succeed : exec_migration empty_catalog migrations = Some schema.
Proof. vm_compute. reflexivity. Qed.

Ltac eval_policies :=
  unfold schema, rls_check; simpl;
  rewrite ?orb_false_r, ?andb_true_r; try reflexivity.

Lemma member_rls_SELECT auth_uid d m :
  member_rls schema SELECT auth_uid d m = bool_decide (auth_uid = user_id m).
Proof. unfold member_rls. eval_policies. Qed.

Lemma member_rls_INSERT auth_uid d m :
  member_rls schema INSERT auth_uid d m =
  bool_decide (user_id m = auth_uid) && bool_decide (role m = owner)
  && is_story_creator d (story_id m) auth_uid.
Proof. unfold member_rls. eval_policies. Qed.

Lemma member_rls_DELETE auth_uid d m : member_rls schema DELETE auth_uid d m = false.
Proof. unfold member_rls. eval_policies. Qed.

Lemma member_rls_UPDATE auth_uid d m : member_rls schema UPDATE auth_uid d m = false.
Proof. unfold member_rls. eval_policies. Qed.

Lemma story_rls_INSERT auth_uid d s :
  story_rls schema INSERT auth_uid d s = bool_decide (auth_uid = created_by s).
Proof.
  unfold story_rls. generalize (visible_story_members schema auth_uid d).
  intros sms. eval_policies.
Qed.

Lemma story_rls_SELECT auth_uid d s :
  story_rls schema SELECT auth_uid d s =
  bool_decide (is_public s = true)
  || id_in_my_story_ids (visible_story_members schema auth_uid d) (id s) auth_uid.
Proof.
  unfold story_rls. generalize (visible_story_members schema auth_uid d).
  intros sms. eval_policies.
Qed.

Lemma story_rls_UPDATE auth_uid d s :
  story_rls schema UPDATE auth_uid d s =
  (bool_decide (is_public s = true)
   || id_in_my_story_ids (visible_story_members schema auth_uid d) (id s) auth_uid)
  && exists_owner_membership (visible_story_members schema auth_uid d) (id s) auth_uid.
Proof.
  unfold story_rls. generalize (visible_story_members schema auth_uid d).
  intros sms. eval_policies.
Qed.

Lemma story_rls_DELETE auth_uid d s :
  story_rls schema DELETE auth_uid d s =
  (bool_decide (is_public s = true)
   || id_in_my_story_ids (visible_story_members schema auth_uid d) (id s) auth_uid)
  && exists_owner_membership (visible_story_members schema auth_uid d) (id s) auth_uid.
Proof.
  unfold story_rls. generalize (visible_story_members schema auth_uid d).
  intros sms. eval_policies.
Qed.

(** ** What the policy expressions mean *)

Lemma existsb_elem_of {A} (f : A → bool) (l : list A) :
  existsb f l = true ↔ ∃ x, x ∈ l ∧ f x = true.
Proof. rewrite existsb_exists. by setoid_rewrite list_elem_of_In. Qed.

Lemma forallb_elem_of {A} (f : A → bool) (l : list A) :
  forallb f l = true ↔ ∀ x, x ∈ l → f x = true.
Proof. rewrite forallb_forall. by setoid_rewrite list_elem_of_In. Qed.

Lemma visible_story_members_spec auth_uid d m :
  m ∈ visible_story_members schema auth_uid d ↔ m ∈ story_members d ∧ user_id m = auth_uid.
Proof.
  unfold visible_story_members. rewrite list_elem_of_filter, member_rls_SELECT.
  rewrite bool_decide_eq_true. naive_solver.
Qed.

Lemma is_story_creator_spec d _id u : is_story_creator d _id u = true ↔ is_creator d _id u.
Proof.
  unfold is_story_creator, is_creator. rewrite existsb_elem_of.
  setoid_rewrite andb_true_iff. setoid_rewrite bool_decide_eq_true. naive_solver.
Qed.

Lemma exists_owner_membership_spec sms _id u :
  exists_owner_membership sms _id u = true ↔
  ∃ m, m ∈ sms ∧ story_id m = _id ∧ user_id m = u ∧ role m = owner.
Proof.
  unfold exists_owner_membership. rewrite existsb_elem_of.
  setoid_rewrite andb_true_iff. setoid_rewrite andb_true_iff.
  setoid_rewrite bool_decide_eq_true. naive_solver.
Qed.

Lemma is_story_owner_spec d _id u : is_story_owner d _id u = true ↔ is_owner d _id u.
Proof. apply exists_owner_membership_spec. Qed.

Lemma id_in_my_story_ids_spec sms _id u :
  id_in_my_story_ids sms _id u = true ↔ ∃ m, m ∈ sms ∧ story_id m = _id ∧ user_id m = u.
Proof.
  unfold id_in_my_story_ids. rewrite bool_decide_eq_true, list_elem_of_fmap.
  setoid_rewrite list_elem_of_filter. naive_solver.
Qed.

(** The plain subqueries of the [stories] policies only ask for the
    caller's own rows, which the SELECT policy of [story_members] lets
    through: reading through row-level security loses nothing. *)
Lemma id_in_my_story_ids_visible auth_uid d _id :
  id_in_my_story_ids (visible_story_members schema auth_uid d) _id auth_uid = true ↔
  is_member d _id auth_uid.
Proof.
  rewrite id_in_my_story_ids_spec. unfold is_member.
  setoid_rewrite visible_story_members_spec. naive_solver.
Qed.

Lemma exists_owner_membership_visible auth_uid d _id :
  exists_owner_membership (visible_story_members schema auth_uid d) _id auth_uid = true ↔
  is_owner d _id auth_uid.
Proof.
  rewrite exists_owner_membership_spec. unfold is_owner.
  setoid_rewrite visible_story_members_spec. naive_solver.
Qed.

Lemma is_owner_is_member d _id u : is_owner d _id u → is_member d _id u.
Proof. intros (m & ? & ? & ? & ?). by exists m. Qed.

Lemma exists_membership_spec sms _id u :
  exists_membership sms _id u = true ↔ ∃ m, m ∈ sms ∧ story_id m = _id ∧ user_id m = u.
Proof.
  unfold exists_membership. rewrite existsb_elem_of.
  setoid_rewrite andb_true_iff. setoid_rewrite bool_decide_eq_true. naive_solver.
Qed.

Lemma bool_eq_iff (a b : bool) : (a = true ↔ b = true) → a = b.
Proof. destruct a, b; naive_solver. Qed.

(** ** View decision *)

Lemma canView_iff d caller R :
  canView d caller R = true ↔ is_public R = true ∨ is_member d (id R) caller.
Proof.
  unfold canView. rewrite story_rls_SELECT, orb_true_iff, bool_decide_eq_true.
  by rewrite id_in_my_story_ids_visible.
Qed.

(** C1: the SELECT policy of [stories] lets a caller see a story exactly
    when the story is public or the caller has a membership row on it,
    of any role; as a boolean, the decision is the public flag or-ed
    with the membership lookup, so a non-member is denied on a private
    story and allowed on a public one. *)
Theorem canView_public_or_member d caller R :
  (canView d caller R = true ↔ is_public R = true ∨ is_member d (id R) caller)
  ∧ canView d caller R = is_public R || exists_membership (story_members d) (id R) caller.
Proof.
  split; [apply canView_iff|].
  apply bool_eq_iff. rewrite canView_iff, orb_true_iff, exists_membership_spec.
  reflexivity.
Qed.

Example canView_nonmember_private : canView trip_db 20 (sample_story 1 10 false) = false.
Proof. vm_compute. reflexivity. Qed.

Example canView_nonmember_public :
  canView {| stories := [sample_story 1 10 true]; story_members := story_members trip_db |}
          20 (sample_story 1 10 true) = true.
Proof. vm_compute. reflexivity. Qed.

(** ** Add-member decision *)

(** C2, as stated, fails: user 10 owns story 1 but may not add user 20
    as a member, because the policy that let owners insert members is
    dropped by the last migration. *)
Lemma canInsertMember_owner_denied :
  let row := {| story_id := 1; user_id := 20; role := member |} in
  ¬ (canInsertMember trip_db 10 row = true ↔
     (user_id row = 10%N ∧ role row = owner ∧ is_creator trip_db (story_id row) 10)
     ∨ is_owner trip_db (story_id row) 10).
Proof.
  intros row [_ H].
  assert (Hden : canInsertMember trip_db 10 row = false) by (vm_compute; reflexivity).
  rewrite H in Hden; [discriminate|].
  right. exists {| story_id := 1; user_id := 10; role := owner |}.
  split; [apply list_elem_of_here | clear; repeat split].
Qed.

(** C2, amended: inserting the membership row [(R, U, r)] is allowed
    exactly in the bootstrap case, when [U] is the caller, [r] is
    [owner] and the caller is the recorded creator of [R]. *)
Theorem canInsertMember_bootstrap_only d caller row :
  canInsertMember d caller row = true ↔
  user_id row = caller ∧ role row = owner ∧ is_creator d (story_id row) caller.
Proof.
  unfold canInsertMember. rewrite member_rls_INSERT, !andb_true_iff, !bool_decide_eq_true.
  rewrite is_story_creator_spec. naive_solver.
Qed.

(** ** Update and delete decisions on stories *)

Lemma base_rule_iff caller d R :
  bool_decide (is_public R = true)
  || id_in_my_story_ids (visible_story_members schema caller d) (id R) caller = true ↔
  is_public R = true ∨ is_member d (id R) caller.
Proof. by rewrite orb_true_iff, bool_decide_eq_true, id_in_my_story_ids_visible. Qed.

Lemma owner_only caller d R :
  (bool_decide (is_public R = true)
   || id_in_my_story_ids (visible_story_members schema caller d) (id R) caller)
  && exists_owner_membership (visible_story_members schema caller d) (id R) caller = true ↔
  is_owner d (id R) caller.
Proof.
  rewrite andb_true_iff, base_rule_iff, exists_owner_membership_visible.
  split; [naive_solver|]. intros H. split; [|done]. right. by apply is_owner_is_member.
Qed.

Lemma canUpdate_iff d caller R : canUpdate d caller R = true ↔ is_owner d (id R) caller.
Proof. unfold canUpdate. rewrite story_rls_UPDATE. apply owner_only. Qed.

Lemma canDelete_iff d caller R : canDelete d caller R = true ↔ is_owner d (id R) caller.
Proof. unfold canDelete. rewrite story_rls_DELETE. apply owner_only. Qed.

(** C5: on [stories], the UPDATE decision and the DELETE decision are
    each the conjunction of the permissive base policy (public, or the
    caller is a member) with the restrictive owner policy, and that
    conjunction is the same predicate as "the caller has an owner row on
    the story" (the lookup of [is_story_owner]); the rows an UPDATE or
    DELETE statement actually touches, which must also be visible to the
    caller, are selected by that same predicate. *)
Theorem canMutate_base_and_owner d caller R :
  let sms := visible_story_members schema caller d in
  canUpdate d caller R =
    polqual Members_can_target_their_stories_base caller sms R
    && polqual Only_owners_can_update_stories caller sms R
  ∧ canDelete d caller R =
    polqual Members_can_target_their_stories_for_delete_base caller sms R
    && polqual Only_owners_can_delete_stories caller sms R
  ∧ (polqual Members_can_target_their_stories_base caller sms R = true ↔
     is_public R = true ∨ is_member d (id R) caller)
  ∧ (polqual Members_can_target_their_stories_for_delete_base caller sms R = true ↔
     is_public R = true ∨ is_member d (id R) caller)
  ∧ (polqual Only_owners_can_update_stories caller sms R = true ↔ is_owner d (id R) caller)
  ∧ (polqual Only_owners_can_delete_stories caller sms R = true ↔ is_owner d (id R) caller)
  ∧ (canUpdate d caller R = true ↔ is_owner d (id R) caller)
  ∧ (canDelete d caller R = true ↔ is_owner d (id R) caller)
  ∧ canUpdate d caller R = is_story_owner d (id R) caller
  ∧ canDelete d caller R = is_story_owner d (id R) caller
  ∧ update_stories_target schema caller (id R) d R = is_story_owner d (id R) caller
  ∧ delete_stories_target schema caller (id R) d R = is_story_owner d (id R) caller.
Proof.
  intros sms. repeat split_and.
  - apply story_rls_UPDATE.
  - apply story_rls_DELETE.
  - apply base_rule_iff.
  - apply base_rule_iff.
  - apply exists_owner_membership_visible.
  - apply exists_owner_membership_visible.
  - apply canUpdate_iff.
  - apply canDelete_iff.
  - apply bool_eq_iff. by rewrite canUpdate_iff, is_story_owner_spec.
  - apply bool_eq_iff. by rewrite canDelete_iff, is_story_owner_spec.
  - apply bool_eq_iff. unfold update_stories_target.
    rewrite bool_decide_true by done. fold (canView d caller R) (canUpdate d caller R).
    rewrite !andb_true_iff, canView_iff, canUpdate_iff, is_story_owner_spec.
    split; [tauto|]. intros H. split_and!; [done| |done]. right. by apply is_owner_is_member.
  - apply bool_eq_iff. unfold delete_stories_target.
    rewrite bool_decide_true by done. fold (canView d caller R) (canDelete d caller R).
    rewrite !andb_true_iff, canView_iff, canDelete_iff, is_story_owner_spec.
    split; [tauto|]. intros H. split_and!; [done| |done]. right. by apply is_owner_is_member.
Qed.

(** ** Remove-member decision *)

(** C6, as stated, fails: user 10 owns story 1, yet the DELETE decision
    on the membership row [(1, 10)] is a denial; the last migration
    drops "Story owners can delete members" and creates no DELETE policy
    on [story_members]. *)
Lemma canDeleteMember_owner_denied :
  let row := {| story_id := 1; user_id := 10; role := owner |} in
  ¬ (canDeleteMember trip_db 10 row = true ↔ is_owner trip_db (story_id row) 10).
Proof.
  intros row [_ H].
  assert (Hden : canDeleteMember trip_db 10 row = false) by (vm_compute; reflexivity).
  rewrite H in Hden; [discriminate|].
  exists row. split; [apply list_elem_of_here | clear; repeat split].
Qed.

Lemma filter_all {A} (P : A → Prop) `{∀ x, Decision (P x)} (l : list A) :
  (∀ x, x ∈ l → P x) → filter P l = l.
Proof.
  induction l as [|a l IH]; intros Hall; [done|].
  rewrite filter_cons_True by (apply Hall; left).
  f_equal. apply IH. intros x Hx. apply Hall. by right.
Qed.

Lemma filter_none {A} (P : A → Prop) `{∀ x, Decision (P x)} (l : list A) :
  (∀ x, x ∈ l → ¬ P x) → filter P l = [].
Proof.
  induction l as [|a l IH]; intros Hall; [done|].
  rewrite filter_cons_False by (apply Hall; left).
  apply IH. intros x Hx. apply Hall. by right.
Qed.

Lemma delete_story_members_target_false auth_uid _story_id _user_id d m :
  delete_story_members_target schema auth_uid _story_id _user_id d m = false.
Proof.
  unfold delete_story_members_target. rewrite member_rls_DELETE. apply andb_false_r.
Qed.

Lemma delete_story_members_noop auth_uid _story_id _user_id d :
  delete_story_members schema auth_uid _story_id _user_id d = (d, 0).
Proof.
  unfold delete_story_members. f_equal.
  - destruct d as [ss ms]; simpl. f_equal. apply filter_all.
    intros m _. apply delete_story_members_target_false.
  - rewrite filter_none; [done|].
    intros m _. by rewrite delete_story_members_target_false.
Qed.

(** C6, amended: no caller, owner or not, is allowed to remove a
    membership row; a removal request deletes nothing, reports zero
    rows and no error, whether or not the row exists. *)
Theorem canDeleteMember_never d caller row _story_id _user_id :
  canDeleteMember d caller row = false
  ∧ delete_story_members schema caller _story_id _user_id d = (d, 0)
  ∧ exec schema caller (DELETE_FROM_story_members _story_id _user_id) d = (d, affected 0).
Proof.
  repeat split_and.
  - apply member_rls_DELETE.
  - apply delete_story_members_noop.
  - unfold exec. by rewrite delete_story_members_noop.
Qed.

(** ** Table constraints are kept by every statement *)

Section list_facts.
Context {A B : Type} (f : A → B).

Lemma NoDup_fmap_filter (P : A → Prop) `{∀ x, Decision (P x)} (l : list A) :
  NoDup (f <$> l) → NoDup (f <$> filter P l).
Proof.
  induction l as [|a l IH]; simpl; [done|].
  rewrite NoDup_cons. intros [Hnotin Hnd].
  destruct (decide (P a)).
  - rewrite filter_cons_True by done. simpl. apply NoDup_cons. split; [|by apply IH].
    rewrite list_elem_of_fmap. intros (x & Hfx & Hx).
    apply list_elem_of_filter in Hx as [_ Hx].
    apply Hnotin. rewrite Hfx. by apply list_elem_of_fmap_2.
  - rewrite filter_cons_False by done. by apply IH.
Qed.

Lemma NoDup_fmap_eq (l : list A) x y :
  NoDup (f <$> l) → x ∈ l → y ∈ l → f x = f y → x = y.
Proof.
  induction l as [|a l IH]; simpl; [by intros _ ?%elem_of_nil|].
  rewrite NoDup_cons. intros [Hnotin Hnd] Hx Hy Hf.
  apply elem_of_cons in Hx as [->|Hx]; apply elem_of_cons in Hy as [->|Hy].
  - done.
  - exfalso. apply Hnotin. rewrite Hf. by apply list_elem_of_fmap_2.
  - exfalso. apply Hnotin. rewrite <- Hf. by apply list_elem_of_fmap_2.
  - by apply IH.
Qed.

Lemma NoDup_fmap_snoc (l : list A) a :
  NoDup (f <$> l) → f a ∉ f <$> l → NoDup (f <$> l ++ [a]).
Proof.
  intros Hnd Hnotin. rewrite fmap_app. apply NoDup_app. split_and!.
  - done.
  - intros x Hx ->%list_elem_of_singleton. done.
  - apply NoDup_singleton.
Qed.
End list_facts.

(** The trigger function. *)

Lemma handle_new_story_owner_membership_stories NEW d :
  stories (handle_new_story_owner_membership NEW d) = stories d.
Proof. unfold handle_new_story_owner_membership. by case_bool_decide. Qed.

Lemma handle_new_story_owner_membership_mono NEW d m :
  m ∈ story_members d → m ∈ story_members (handle_new_story_owner_membership NEW d).
Proof.
  unfold handle_new_story_owner_membership. case_bool_decide; simpl; [done|].
  intros. apply elem_of_app. by left.
Qed.

Lemma handle_new_story_owner_membership_inv NEW d m :
  m ∈ story_members (handle_new_story_owner_membership NEW d) →
  m ∈ story_members d ∨ m = {| story_id := id NEW; user_id := created_by NEW; role := owner |}.
Proof.
  unfold handle_new_story_owner_membership. case_bool_decide; simpl; [by left|].
  rewrite elem_of_app, list_elem_of_singleton. done.
Qed.

Lemma handle_new_story_owner_membership_unique NEW d :
  unique_membership d → unique_membership (handle_new_story_owner_membership NEW d).
Proof.
  unfold unique_membership, handle_new_story_owner_membership.
  case_bool_decide; simpl; [done|]. intros. by apply NoDup_fmap_snoc.
Qed.

(** On a story without any membership row the trigger adds the owner row. *)
Lemma handle_new_story_owner_membership_fresh NEW d :
  (∀ m, m ∈ story_members d → story_id m ≠ id NEW) →
  story_members (handle_new_story_owner_membership NEW d) =
  story_members d ++ [{| story_id := id NEW; user_id := created_by NEW; role := owner |}].
Proof.
  intros Hfresh. unfold handle_new_story_owner_membership.
  case_bool_decide as Hin; [|done].
  apply list_elem_of_fmap in Hin as (m & Hkey & Hm).
  exfalso. apply (Hfresh m Hm). unfold member_key in Hkey. simpl in Hkey. congruence.
Qed.

(** Invoking it again changes nothing. *)
Lemma handle_new_story_owner_membership_idem NEW d :
  handle_new_story_owner_membership NEW (handle_new_story_owner_membership NEW d) =
  handle_new_story_owner_membership NEW d.
Proof.
  set (row := {| story_id := id NEW; user_id := created_by NEW; role := owner |}).
  destruct (decide (member_key row ∈ member_key <$> story_members d)) as [Hin|Hnin].
  - assert (handle_new_story_owner_membership NEW d = d) as Heq
      by (unfold handle_new_story_owner_membership; by rewrite bool_decide_true).
    by rewrite !Heq.
  - assert (handle_new_story_owner_membership NEW d =
            {| stories := stories d; story_members := story_members d ++ [row] |}) as Heq
      by (unfold handle_new_story_owner_membership; by rewrite bool_decide_false).
    rewrite !Heq. unfold handle_new_story_owner_membership. simpl.
    rewrite bool_decide_true; [done|].
    rewrite fmap_app, elem_of_app. right. apply list_elem_of_here.
Qed.

(** When statements succeed. *)

Lemma insert_stories_Ok auth_uid NEW d d' :
  insert_stories schema auth_uid NEW d = Ok d' ↔
  auth_uid = created_by NEW ∧ (id NEW ∉ id <$> stories d)
  ∧ d' = handle_new_story_owner_membership NEW
           {| stories := stories d ++ [NEW]; story_members := story_members d |}.
Proof.
  unfold insert_stories. rewrite story_rls_INSERT.
  case_bool_decide; simpl; [|naive_solver].
  case_bool_decide; simpl; naive_solver.
Qed.

Lemma insert_story_members_Ok auth_uid NEW d d' :
  insert_story_members schema auth_uid NEW d = Ok d' ↔
  canInsertMember d auth_uid NEW = true
  ∧ (member_key NEW ∉ member_key <$> story_members d)
  ∧ story_id NEW ∈ id <$> stories d
  ∧ d' = {| stories := stories d; story_members := story_members d ++ [NEW] |}.
Proof.
  unfold insert_story_members, canInsertMember.
  destruct (member_rls schema INSERT auth_uid d NEW); simpl; [|naive_solver].
  case_bool_decide; simpl; [naive_solver|].
  case_bool_decide; simpl; naive_solver.
Qed.

Lemma insert_stories_returning_Ok cat auth_uid NEW d d' row :
  insert_stories_returning cat auth_uid NEW d = Ok (d', row) →
  insert_stories cat auth_uid NEW d = Ok d' ∧ row = NEW
  ∧ story_rls cat SELECT auth_uid d NEW = true.
Proof.
  unfold insert_stories_returning.
  destruct (story_rls cat SELECT auth_uid d NEW); simpl; [|done].
  destruct (insert_stories cat auth_uid NEW d); [|done].
  by intros [= -> ->].
Qed.

Lemma invariant_empty : invariant empty_db.
Proof.
  unfold invariant, constraints, primary_key, unique_membership, foreign_key, has_owner.
  simpl. split_and!; try apply NoDup_nil_2; by intros ? ?%elem_of_nil.
Qed.

Lemma foreign_key_fresh d NEW :
  foreign_key d → id NEW ∉ id <$> stories d →
  ∀ m, m ∈ story_members d → story_id m ≠ id NEW.
Proof. intros Hfk Hfresh m Hm Heq. apply Hfresh. rewrite <- Heq. by apply Hfk. Qed.

Lemma insert_stories_invariant auth_uid NEW d d' :
  invariant d → insert_stories schema auth_uid NEW d = Ok d' → invariant d'.
Proof.
  intros [(Hpk & Huq & Hfk) Hown] (_ & Hfresh & ->)%insert_stories_Ok.
  pose proof (foreign_key_fresh d NEW Hfk Hfresh) as Hnone.
  set (d1 := {| stories := stories d ++ [NEW]; story_members := story_members d |}).
  assert (Hms : story_members (handle_new_story_owner_membership NEW d1) =
                story_members d ++
                  [{| story_id := id NEW; user_id := created_by NEW; role := owner |}])
    by (by apply (handle_new_story_owner_membership_fresh NEW d1)).
  unfold invariant, constraints, primary_key, unique_membership, foreign_key, has_owner.
  rewrite handle_new_story_owner_membership_stories, Hms. simpl. split_and!.
  - by apply NoDup_fmap_snoc.
  - rewrite <- Hms. by apply handle_new_story_owner_membership_unique.
  - intros m [Hm| ->%list_elem_of_singleton]%elem_of_app; rewrite fmap_app, elem_of_app.
    + left. by apply Hfk.
    + right. simpl. apply list_elem_of_here.
  - intros s [Hs| ->%list_elem_of_singleton]%elem_of_app.
    + destruct (Hown s Hs) as (m & Hm & ? & ?). exists m. rewrite elem_of_app. auto.
    + eexists. rewrite elem_of_app, list_elem_of_singleton. split; [by right|done].
Qed.

Lemma insert_story_members_invariant auth_uid NEW d d' :
  invariant d → insert_story_members schema auth_uid NEW d = Ok d' → invariant d'.
Proof.
  intros [(Hpk & Huq & Hfk) Hown] (_ & Hfresh & Href & ->)%insert_story_members_Ok.
  unfold invariant, constraints, primary_key, unique_membership, foreign_key, has_owner.
  simpl. split_and!.
  - done.
  - by apply NoDup_fmap_snoc.
  - intros m [Hm| ->%list_elem_of_singleton]%elem_of_app; [by apply Hfk|done].
  - intros s Hs. destruct (Hown s Hs) as (m & Hm & ? & ?).
    exists m. rewrite elem_of_app. auto.
Qed.

Lemma update_stories_invariant auth_uid _id set now d d' n :
  invariant d → update_stories schema auth_uid _id set now d = Ok (d', n) → invariant d'.
Proof.
  intros [(Hpk & Huq & Hfk) Hown]. unfold update_stories.
  destruct (forallb _ (filter _ (stories d))) eqn:Hcheck; simpl; [|done].
  case_bool_decide as Hpk'; simpl; [|done].
  destruct (forallb _ (story_members d)) eqn:Hfk'; simpl; [|done].
  intros [= <- _].
  unfold invariant, constraints, primary_key, unique_membership, foreign_key, has_owner.
  simpl. split_and!.
  - done.
  - done.
  - intros m Hm. rewrite forallb_elem_of in Hfk'.
    specialize (Hfk' m Hm). by apply bool_decide_eq_true in Hfk'.
  - intros s' (s & -> & Hs)%list_elem_of_fmap.
    destruct (update_stories_target schema auth_uid _id d s) eqn:Htarget.
    + rewrite forallb_elem_of in Hcheck.
      specialize (Hcheck s). rewrite list_elem_of_filter in Hcheck.
      specialize (Hcheck (conj Htarget Hs)).
      apply andb_prop in Hcheck as [Hupd _].
      apply canUpdate_iff in Hupd as (m & Hm & ? & ? & ?). by exists m.
    + by apply Hown.
Qed.

Lemma delete_stories_invariant auth_uid _id d :
  invariant d → invariant (delete_stories schema auth_uid _id d).1.
Proof.
  intros [(Hpk & Huq & Hfk) Hown].
  unfold invariant, constraints, primary_key, unique_membership, foreign_key, has_owner.
  unfold delete_stories. simpl.
  set (target := delete_stories_target schema auth_uid _id d).
  assert (Hkeep : ∀ s m, s ∈ stories d → target s = false → m ∈ story_members d →
                         story_id m = id s →
                         story_id m ∉ id <$> filter (λ s, target s = true) (stories d)).
  { intros s m Hs Hfalse Hm Heq (s2 & Heq2 & Hs2)%list_elem_of_fmap.
    apply list_elem_of_filter in Hs2 as [Htrue Hs2].
    assert (s2 = s) as -> by (apply (NoDup_fmap_eq id (stories d)); [done..|congruence]).
    congruence. }
  split_and!.
  - by apply NoDup_fmap_filter.
  - by apply NoDup_fmap_filter.
  - intros m [Hnotin Hm]%list_elem_of_filter.
    destruct (list_elem_of_fmap_1 _ _ _ (Hfk m Hm)) as (s & Heq & Hs).
    rewrite Heq. apply list_elem_of_fmap_2, list_elem_of_filter. split; [|done].
    apply not_true_is_false. intros Htrue. apply Hnotin.
    rewrite Heq. apply list_elem_of_fmap_2, list_elem_of_filter. done.
  - intros s [Hfalse Hs]%list_elem_of_filter.
    destruct (Hown s Hs) as (m & Hm & Heq & Hrole).
    exists m. split_and!; [|done..]. apply list_elem_of_filter. split; [|done].
    by apply (Hkeep s).
Qed.

Lemma exec_invariant auth_uid req d : invariant d → invariant (exec schema auth_uid req d).1.
Proof.
  intros Hinv. destruct req as [NEW [|]|NEW|sid uid|_id set now|_id|_id|sid]; unfold exec.
  - destruct (insert_stories_returning schema auth_uid NEW d) as [[d' row]|e] eqn:Hret;
      [|done].
    apply insert_stories_returning_Ok in Hret as (Hins & _ & _).
    simpl. by eapply insert_stories_invariant.
  - destruct (insert_stories schema auth_uid NEW d) as [d'|e] eqn:Hins; [|done].
    simpl. by eapply insert_stories_invariant.
  - destruct (insert_story_members schema auth_uid NEW d) as [d'|e] eqn:Hins; [|done].
    simpl. by eapply insert_story_members_invariant.
  - by rewrite delete_story_members_noop.
  - destruct (update_stories schema auth_uid _id set now d) as [[d' n]|e] eqn:Hupd; [|done].
    simpl. by eapply update_stories_invariant.
  - pose proof (delete_stories_invariant auth_uid _id d Hinv) as H.
    by destruct (delete_stories schema auth_uid _id d).
  - done.
  - done.
Qed.

Lemma reachable_invariant d : reachable d → invariant d.
Proof.
  induction 1 as [|d auth_uid req _ IH]; [apply invariant_empty | by apply exec_invariant].
Qed.

(** ** Ownership and uniqueness invariants *)

(** C3: in every state reachable from the empty tables by requests of
    any callers (story creation, member insertion, member removal,
    story update, story deletion, and reads), each story has at least
    one membership row with role [owner]. *)
Theorem reachable_has_owner d : reachable d → has_owner d.
Proof. intros Hd. by destruct (reachable_invariant d Hd). Qed.

Lemma trip_history_reachable : reachable trip_history.
Proof. unfold trip_history. repeat apply reachable_exec. apply reachable_empty. Qed.

Lemma reachable_has_owner_witness :
  trip_history = trip_db ∧ reachable trip_history ∧ has_owner trip_history.
Proof.
  split; [vm_compute; reflexivity|].
  split; [apply trip_history_reachable|].
  apply (reachable_has_owner trip_history). apply trip_history_reachable.
Defined.

Lemma insert_story_members_duplicate caller NEW d :
  member_key NEW ∈ member_key <$> story_members d →
  insert_story_members schema caller NEW d =
  if canInsertMember d caller NEW then Err unique_violation else Err insufficient_privilege.
Proof.
  intros Hin. unfold insert_story_members, canInsertMember.
  destruct (member_rls schema INSERT caller d NEW); simpl; [|done].
  by rewrite bool_decide_true.
Qed.

(** C4: in every reachable state no two rows of [story_members] share
    their [(story_id, user_id)] pair.  A client insert for a pair that
    is already present never adds a row: it fails with
    [unique_violation] once it is past the INSERT policy (and with the
    policy's own error before that), leaving the tables as they were;
    and the owner row written by the creation trigger never meets an
    existing pair. *)
Theorem reachable_unique_membership d :
  reachable d →
  unique_membership d
  ∧ (∀ caller NEW,
       member_key NEW ∈ member_key <$> story_members d →
       insert_story_members schema caller NEW d =
         (if canInsertMember d caller NEW then Err unique_violation
          else Err insufficient_privilege)
       ∧ (exec schema caller (INSERT_INTO_story_members NEW) d).1 = d)
  ∧ (∀ caller NEW d',
       insert_stories schema caller NEW d = Ok d' →
       (id NEW, created_by NEW) ∉ member_key <$> story_members d).
Proof.
  intros Hd. destruct (reachable_invariant d Hd) as [(Hpk & Huq & Hfk) _]. split_and!.
  - done.
  - intros caller NEW Hin. pose proof (insert_story_members_duplicate caller NEW d Hin) as Hdup.
    split; [done|]. unfold exec. rewrite Hdup. by destruct (canInsertMember d caller NEW).
  - intros caller NEW d' (_ & Hfresh & _)%insert_stories_Ok (m & Hkey & Hm)%list_elem_of_fmap.
    apply (foreign_key_fresh d NEW Hfk Hfresh m Hm). unfold member_key in Hkey. congruence.
Qed.

Lemma reachable_unique_membership_witness :
  unique_membership trip_history
  ∧ insert_story_members schema 10 {| story_id := 1; user_id := 10; role := owner |}
      trip_history = Err unique_violation.
Proof.
  destruct (reachable_unique_membership trip_history trip_history_reachable)
    as (Huq & Hdup & _).
  split; [exact Huq|].
  destruct (Hdup 10%N {| story_id := 1; user_id := 10; role := owner |}) as [Heq _].
  - vm_compute. apply list_elem_of_here.
  - rewrite Heq. vm_compute. reflexivity.
Defined.

(** ** Story creation *)

Lemma insert_stories_creator_is_owner d U NEW d' :
  foreign_key d → insert_stories schema U NEW d = Ok d' →
  NEW ∈ stories d'
  ∧ {| story_id := id NEW; user_id := U; role := owner |} ∈ story_members d'
  ∧ (∀ m, m ∈ story_members d' → story_id m = id NEW →
          m = {| story_id := id NEW; user_id := U; role := owner |}).
Proof.
  intros Hfk (-> & Hfresh & ->)%insert_stories_Ok.
  pose proof (foreign_key_fresh d NEW Hfk Hfresh) as Hnone.
  rewrite handle_new_story_owner_membership_stories.
  rewrite (handle_new_story_owner_membership_fresh NEW) by done. simpl. split_and!.
  - apply elem_of_app. right. apply list_elem_of_here.
  - apply elem_of_app. right. apply list_elem_of_here.
  - intros m [Hm| ->%list_elem_of_singleton]%elem_of_app Heq; [|done].
    by destruct (Hnone m Hm).
Qed.

Lemma story_rls_SELECT_fresh d U NEW :
  foreign_key d → id NEW ∉ id <$> stories d →
  story_rls schema SELECT U d NEW = is_public NEW.
Proof.
  intros Hfk Hfresh. apply bool_eq_iff. fold (canView d U NEW). rewrite canView_iff.
  split; [|by left]. intros [Hpub|(m & Hm & Hsid & _)]; [done|].
  by destruct (foreign_key_fresh d NEW Hfk Hfresh m Hm).
Qed.

Lemma insert_stories_returning_as_creator d U NEW :
  foreign_key d → created_by NEW = U → id NEW ∉ id <$> stories d →
  let d' := handle_new_story_owner_membership NEW
              {| stories := stories d ++ [NEW]; story_members := story_members d |} in
  insert_stories schema U NEW d = Ok d'
  ∧ insert_stories_returning schema U NEW d
    = if is_public NEW then Ok (d', NEW) else Err insufficient_privilege.
Proof.
  intros Hfk HU Hfresh d'.
  assert (Hins : insert_stories schema U NEW d = Ok d') by (by apply insert_stories_Ok).
  split; [exact Hins|].
  unfold insert_stories_returning. rewrite story_rls_SELECT_fresh by done.
  destruct (is_public NEW); simpl; [by rewrite Hins|done].
Qed.

(** C7: when user [U] creates a story (a row recorded as created by [U]
    under an unused id), the insert succeeds and, in the state it
    returns, the manage-members decision for [U] on the new story, that
    is the owner lookup [is_story_owner], answers true: the trigger
    writes the owner row within the insert itself, so the story never
    exists without it.  The creator policy on [story_members] accepts
    [U]'s owner row for the new story as well.  Asked with [RETURNING],
    the same insert gives a public row back, in that same state; a
    private row it refuses under the SELECT policy and writes nothing,
    so there too no story exists without an owner. *)
Theorem created_story_owned_by_creator d U NEW :
  foreign_key d → created_by NEW = U → id NEW ∉ id <$> stories d →
  ∃ d', insert_stories schema U NEW d = Ok d'
        ∧ NEW ∈ stories d'
        ∧ canManageMembers d' U (id NEW) = true
        ∧ is_story_owner d' (id NEW) U = true
        ∧ canInsertMember d' U {| story_id := id NEW; user_id := U; role := owner |} = true
        ∧ exec schema U (INSERT_INTO_stories NEW false) d = (d', affected 1)
        ∧ exec schema U (INSERT_INTO_stories NEW true) d
          = if is_public NEW then (d', stories_rows [NEW])
            else (d, error insufficient_privilege).
Proof.
  intros Hfk HU Hfresh.
  destruct (insert_stories_returning_as_creator d U NEW Hfk HU Hfresh) as [Hins Hret].
  set (d' := handle_new_story_owner_membership NEW _) in *.
  destruct (insert_stories_creator_is_owner d U NEW d' Hfk Hins) as (Hs & Hm & _).
  assert (Hown : is_story_owner d' (id NEW) U = true).
  { apply is_story_owner_spec.
    exists {| story_id := id NEW; user_id := U; role := owner |}.
    split_and!; [exact Hm|reflexivity..]. }
  exists d'. split_and!.
  - exact Hins.
  - exact Hs.
  - exact Hown.
  - exact Hown.
  - unfold canInsertMember. rewrite member_rls_INSERT, !bool_decide_true by reflexivity.
    apply is_story_creator_spec. exists NEW. split_and!; [exact Hs|reflexivity|exact HU].
  - unfold exec. by rewrite Hins.
  - unfold exec. rewrite Hret. by destruct (is_public NEW).
Qed.

Lemma created_story_owned_by_creator_witness :
  ∃ d', insert_stories schema 10 (sample_story 1 10 true) empty_db = Ok d'
        ∧ sample_story 1 10 true ∈ stories d'
        ∧ canManageMembers d' 10 1 = true
        ∧ is_story_owner d' 1 10 = true
        ∧ canInsertMember d' 10 {| story_id := 1; user_id := 10; role := owner |} = true
        ∧ exec schema 10 (INSERT_INTO_stories (sample_story 1 10 true) false) empty_db
          = (d', affected 1)
        ∧ exec schema 10 (INSERT_INTO_stories (sample_story 1 10 true) true) empty_db
          = (d', stories_rows [sample_story 1 10 true]).
Proof.
  apply (created_story_owned_by_creator empty_db 10%N (sample_story 1 10 true)).
  - intros m Hm. by apply elem_of_nil in Hm.
  - reflexivity.
  - simpl. apply not_elem_of_nil.
Defined.

(** ** The story form *)

(** Run twice, the trigger function leaves what one run leaves, and it
    has no error to report. *)
Lemma handle_new_story_owner_membership_twice NEW d :
  foreign_key d → id NEW ∉ id <$> stories d →
  let d1 := {| stories := stories d ++ [NEW]; story_members := story_members d |} in
  let d2 := handle_new_story_owner_membership NEW (handle_new_story_owner_membership NEW d1) in
  filter (λ m, story_id m = id NEW) (story_members d2) =
  [{| story_id := id NEW; user_id := created_by NEW; role := owner |}].
Proof.
  intros Hfk Hfresh d1 d2. unfold d2.
  rewrite handle_new_story_owner_membership_idem.
  pose proof (foreign_key_fresh d NEW Hfk Hfresh) as Hnone.
  rewrite (handle_new_story_owner_membership_fresh NEW d1) by done. simpl.
  rewrite filter_app, filter_none by done.
  simpl. by rewrite filter_cons_True.
Qed.

(** C8 (the code departs from it): for a public story [handleSubmit]
    fires the ownership step twice, once through the trigger of the
    story insert and once through its own plain insert into
    [story_members].  The trigger absorbs a conflict ([ON CONFLICT DO
    NOTHING]); the client insert does not: it passes the creator
    policy, hits the unique pair, and the form reports "Error creating
    story" with [unique_violation].  Exactly one membership row, the
    creator's owner row, is left.  (For a private story the form does
    not get that far: see [handleSubmit_private_refused].) *)
Theorem handleSubmit_surfaces_conflict d user title' description' coverImageUrl
    gen_random_uuid now :
  foreign_key d → gen_random_uuid ∉ id <$> stories d →
  ∃ d1, handleSubmit user title' description' true coverImageUrl gen_random_uuid now d
        = (d1, Error_creating_story unique_violation)
        ∧ filter (λ m, story_id m = gen_random_uuid) (story_members d1)
          = [{| story_id := gen_random_uuid; user_id := user; role := owner |}].
Proof.
  intros Hfk Hfresh. unfold handleSubmit.
  set (NEW := {| id := gen_random_uuid; title := title'; description := _;
                 cover_image_url := coverImageUrl; is_public := true;
                 created_by := user; created_at := now; updated_at := now |}).
  destruct (insert_stories_returning_as_creator d user NEW Hfk eq_refl Hfresh)
    as [Hins Hret].
  set (d1 := handle_new_story_owner_membership NEW _) in *.
  change (is_public NEW) with true in Hret. cbv iota in Hret.
  rewrite Hret. cbv beta iota.
  destruct (insert_stories_creator_is_owner d user NEW d1 Hfk Hins) as (Hs & Hm & _).
  exists d1. split.
  - rewrite insert_story_members_duplicate
      by (by apply (list_elem_of_fmap_2 member_key) in Hm).
    assert (canInsertMember d1 user {| story_id := id NEW; user_id := user; role := owner |}
            = true) as ->; [|reflexivity].
    unfold canInsertMember. rewrite member_rls_INSERT, !bool_decide_true by reflexivity.
    apply is_story_creator_spec. exists NEW. split_and!; [exact Hs|reflexivity..].
  - pose proof (foreign_key_fresh d NEW Hfk Hfresh) as Hnone.
    unfold d1. rewrite (handle_new_story_owner_membership_fresh NEW) by done. simpl.
    rewrite filter_app, filter_none by done.
    simpl. by rewrite filter_cons_True.
Qed.

Lemma handleSubmit_surfaces_conflict_witness :
  handleSubmit 10 "Trip" "" true None 1 0 empty_db
  = ({| stories := [sample_story 1 10 true]; story_members := story_members trip_db |},
     Error_creating_story unique_violation).
Proof.
  destruct (handleSubmit_surfaces_conflict empty_db 10%N "Trip" "" None 1%N 0%N)
    as (d1 & Heq & _).
  - intros m Hm. by apply elem_of_nil in Hm.
  - simpl. apply not_elem_of_nil.
  - vm_compute. reflexivity.
Defined.

(** For a private story the form stops at the story insert: the row to
    return does not pass the SELECT policy, the insert is refused and
    nothing is written. *)
Lemma handleSubmit_private_refused d user title' description' coverImageUrl
    gen_random_uuid now :
  foreign_key d → gen_random_uuid ∉ id <$> stories d →
  handleSubmit user title' description' false coverImageUrl gen_random_uuid now d
  = (d, Error_creating_story insufficient_privilege).
Proof.
  intros Hfk Hfresh. unfold handleSubmit.
  set (NEW := {| id := gen_random_uuid; title := title'; description := _;
                 cover_image_url := coverImageUrl; is_public := false;
                 created_by := user; created_at := now; updated_at := now |}).
  destruct (insert_stories_returning_as_creator d user NEW Hfk eq_refl Hfresh)
    as [_ Hret].
  change (is_public NEW) with false in Hret. cbv iota in Hret.
  by rewrite Hret.
Qed.

Example insert_private_story_returning_refused :
  exec schema 10 (INSERT_INTO_stories (sample_story 1 10 false) true) empty_db
  = (empty_db, error insufficient_privilege).
Proof. vm_compute. reflexivity. Qed.

(** ** Denied requests and the existence of a story *)

Section existence.
Variables (d : db) (caller X : uuid).
Hypothesis Hconstraints : constraints d.
Hypothesis Hno_view : ∀ s, s ∈ stories d → id s = X → canView d caller s = false.

Let d' := without_story X d.

Lemma no_view_no_membership : ¬ is_member d X caller.
Proof.
  intros (m & Hm & Hsid & Huid).
  destruct Hconstraints as (_ & _ & Hfk).
  destruct (list_elem_of_fmap_1 _ _ _ (Hfk m Hm)) as (s & Heq & Hs).
  assert (canView d caller s = true) as Hview.
  { apply canView_iff. right. exists m. split_and!; [exact Hm|congruence|exact Huid]. }
  rewrite Hno_view in Hview; [discriminate|exact Hs|congruence].
Qed.

Lemma without_story_stories s : s ∈ stories d' ↔ s ∈ stories d ∧ id s ≠ X.
Proof. unfold d', without_story. simpl. rewrite list_elem_of_filter. tauto. Qed.

Lemma without_story_members m : m ∈ story_members d' ↔ m ∈ story_members d ∧ story_id m ≠ X.
Proof. unfold d', without_story. simpl. rewrite list_elem_of_filter. tauto. Qed.

Lemma without_story_constraints : constraints d'.
Proof.
  destruct Hconstraints as (Hpk & Huq & Hfk). split_and!.
  - by apply NoDup_fmap_filter.
  - by apply NoDup_fmap_filter.
  - intros m [Hm Hne]%without_story_members.
    destruct (list_elem_of_fmap_1 _ _ _ (Hfk m Hm)) as (s & Heq & Hs).
    rewrite Heq. apply list_elem_of_fmap_2, without_story_stories.
    split; [exact Hs|congruence].
Qed.

Lemma select_stories_hidden : select_stories schema caller X d = [].
Proof.
  apply filter_none. intros s Hs [Hid Hrls].
  specialize (Hno_view s Hs Hid). unfold canView in Hno_view. congruence.
Qed.

Lemma select_stories_absent : select_stories schema caller X d' = [].
Proof.
  apply filter_none. intros s [_ Hne]%without_story_stories [Hid _]. contradiction.
Qed.

Lemma select_story_members_hidden : select_story_members schema caller X d = [].
Proof.
  apply filter_none. intros m [Hm Huid]%visible_story_members_spec Hsid.
  apply no_view_no_membership. exists m. split_and!; assumption.
Qed.

Lemma select_story_members_absent : select_story_members schema caller X d' = [].
Proof.
  apply filter_none. intros m [Hm _]%visible_story_members_spec Hsid.
  apply without_story_members in Hm as [_ Hne]. contradiction.
Qed.

Lemma update_stories_target_hidden s :
  s ∈ stories d → update_stories_target schema caller X d s = false.
Proof.
  intros Hs. unfold update_stories_target. case_bool_decide as Hid; [|reflexivity].
  specialize (Hno_view s Hs Hid). unfold canView in Hno_view. by rewrite Hno_view.
Qed.

Lemma update_stories_target_absent s :
  s ∈ stories d' → update_stories_target schema caller X d' s = false.
Proof.
  intros [_ Hne]%without_story_stories. unfold update_stories_target.
  by rewrite bool_decide_false.
Qed.

Lemma delete_stories_target_hidden s :
  s ∈ stories d → delete_stories_target schema caller X d s = false.
Proof.
  intros Hs. unfold delete_stories_target. case_bool_decide as Hid; [|reflexivity].
  specialize (Hno_view s Hs Hid). unfold canView in Hno_view. by rewrite Hno_view.
Qed.

Lemma delete_stories_target_absent s :
  s ∈ stories d' → delete_stories_target schema caller X d' s = false.
Proof.
  intros [_ Hne]%without_story_stories. unfold delete_stories_target.
  by rewrite bool_decide_false.
Qed.

Lemma is_story_creator_absent u : is_story_creator d' X u = false.
Proof.
  apply not_true_is_false. intros (s & Hs & Hid & _)%is_story_creator_spec.
  apply without_story_stories in Hs as [_ Hne]. contradiction.
Qed.
End existence.

Lemma update_stories_no_target auth_uid _id set now d :
  constraints d →
  (∀ s, s ∈ stories d → update_stories_target schema auth_uid _id d s = false) →
  update_stories schema auth_uid _id set now d = Ok (d, 0).
Proof.
  intros (Hpk & Huq & Hfk) Hnone. unfold update_stories.
  rewrite filter_none; [|intros s Hs Ht; specialize (Hnone s Hs); congruence].
  assert ((λ s, if update_stories_target schema auth_uid _id d s
                then update_updated_at_column now (set s) else s) <$> stories d
          = stories d) as ->.
  { rewrite <- (list_fmap_id (stories d)) at 2.
    apply list_fmap_ext. intros i s Hs%list_elem_of_lookup_2. by rewrite (Hnone s Hs). }
  simpl. rewrite bool_decide_true by exact Hpk. simpl.
  assert (forallb (λ m, bool_decide (story_id m ∈ id <$> stories d)) (story_members d)
          = true) as ->.
  { apply forallb_elem_of. intros m Hm. apply bool_decide_eq_true. by apply Hfk. }
  simpl. by destruct d.
Qed.

Lemma delete_stories_no_target auth_uid _id d :
  (∀ s, s ∈ stories d → delete_stories_target schema auth_uid _id d s = false) →
  delete_stories schema auth_uid _id d = (d, 0).
Proof.
  intros Hnone. unfold delete_stories.
  assert (filter (λ s, delete_stories_target schema auth_uid _id d s = true) (stories d)
          = []) as ->.
  { apply filter_none. intros s Hs Ht. specialize (Hnone s Hs). congruence. }
  assert (filter (λ s, delete_stories_target schema auth_uid _id d s = false) (stories d)
          = stories d) as -> by (by apply filter_all).
  simpl. rewrite filter_all by (intros; apply not_elem_of_nil). by destruct d.
Qed.

(** C9: let the caller have no view right on the story id [X] (every
    story with that id is hidden from them).  Then each request on [X]
    other than a membership insert is denied, and every denied request
    on [X] gets the very same response from the tables in which [X] is
    absent; neither run changes the tables. *)
Theorem denied_request_hides_existence d caller X req :
  constraints d →
  (∀ s, s ∈ stories d → id s = X → canView d caller s = false) →
  on_story X req →
  ((∀ NEW, req ≠ INSERT_INTO_story_members NEW) → denied d caller req)
  ∧ (denied d caller req →
     ∃ r, forbidden r = true
          ∧ exec schema caller req d = (d, r)
          ∧ exec schema caller req (without_story X d) = (without_story X d, r)).
Proof.
  intros Hc Hview Hon. pose proof (without_story_constraints d X Hc) as Hc'.
  unfold denied.
  destruct req as [NEW ret|NEW|sid uid|_id set now|_id|_id|sid]; simpl in Hon;
    try contradiction; subst.
  - split; [intros Hne; by destruct (Hne NEW)|].
    intros Hden. exists (error insufficient_privilege). split; [reflexivity|].
    unfold exec in *. unfold insert_story_members in *.
    rewrite (member_rls_INSERT caller (without_story _ d)), is_story_creator_absent.
    rewrite !andb_false_r. simpl. split; [|reflexivity].
    destruct (member_rls schema INSERT caller d NEW); simpl in *; [|reflexivity].
    repeat (case_bool_decide; simpl in * ); discriminate.
  - unfold exec. rewrite !delete_story_members_noop.
    split; [reflexivity|]. intros _. by exists (affected 0).
  - unfold exec.
    rewrite (update_stories_no_target caller X set now d Hc)
      by (by apply update_stories_target_hidden).
    rewrite (update_stories_no_target caller X set now (without_story X d) Hc')
      by (by apply update_stories_target_absent).
    split; [reflexivity|]. intros _. by exists (affected 0).
  - unfold exec.
    rewrite (delete_stories_no_target caller X d)
      by (by apply delete_stories_target_hidden).
    rewrite (delete_stories_no_target caller X (without_story X d))
      by (by apply delete_stories_target_absent).
    split; [reflexivity|]. intros _. by exists (affected 0).
  - unfold exec. rewrite select_stories_hidden by done. rewrite select_stories_absent.
    split; [reflexivity|]. intros _. by exists (stories_rows []).
  - unfold exec. rewrite select_story_members_hidden by done.
    rewrite select_story_members_absent.
    split; [reflexivity|]. intros _. by exists (story_members_rows []).
Qed.

Lemma trip_db_constraints : constraints trip_db.
Proof.
  split_and!.
  - apply NoDup_singleton.
  - apply NoDup_singleton.
  - intros m ->%list_elem_of_singleton. apply list_elem_of_here.
Qed.

Lemma denied_request_hides_existence_witness :
  exec schema 20 (UPDATE_stories 1 (λ s, sample_story 1 20 true) 5) trip_db
  = (trip_db, affected 0)
  ∧ exec schema 20 (UPDATE_stories 1 (λ s, sample_story 1 20 true) 5) (without_story 1 trip_db)
  = (without_story 1 trip_db, affected 0).
Proof.
  destruct (denied_request_hides_existence trip_db 20%N 1%N
              (UPDATE_stories 1 (λ s, sample_story 1 20 true) 5)) as [Hden Hsame].
  - apply trip_db_constraints.
  - intros s ->%list_elem_of_singleton _. vm_compute. reflexivity.
  - reflexivity.
  - destruct Hsame as (r & _ & Hd & Hd'); [by apply Hden|].
    assert (r = affected 0) as ->.
    { assert ((exec schema 20 (UPDATE_stories 1 (λ s, sample_story 1 20 true) 5)
                 trip_db).2 = affected 0) as H0 by (vm_compute; reflexivity).
      rewrite Hd in H0. exact H0. }
    split; assumption.
Defined.

(** ** The dashboard's member count *)

Lemma memberCounts_lookup (l : list N) (acc : gmap N nat) (k : N) :
  foldl memberCounts_add acc l !! k =
  let c := length (filter (λ x, x = k) l) in
  if decide (c = 0) then acc !! k else Some (default 0 (acc !! k) + c).
Proof.
  revert acc. induction l as [|a l IH]; intros acc; simpl; [done|].
  rewrite IH. unfold memberCounts_add. simpl. destruct (decide (a = k)) as [->|Hne].
  - rewrite filter_cons_True by done. simpl. rewrite lookup_insert_eq. simpl.
    destruct (decide (length (filter (λ x, x = k) l) = 0)) as [->|_]; f_equal; lia.
  - rewrite filter_cons_False by done. by rewrite lookup_insert_ne.
Qed.

Lemma length_filter_fmap {A B} (f : A → B) `{EqDecision B} (k : B) (l : list A) :
  length (filter (λ y, y = k) (f <$> l)) = length (filter (λ x, f x = k) l).
Proof.
  induction l as [|a l IH]; [done|].
  rewrite fmap_cons. destruct (decide (f a = k)).
  - rewrite !filter_cons_True by done. cbn [length]. f_equal. exact IH.
  - rewrite !filter_cons_False by done. exact IH.
Qed.

Lemma unique_key_at_most_one (P : story_member → Prop) `{∀ m, Decision (P m)}
    (key : N * N) (l : list story_member) :
  NoDup (member_key <$> l) → (∀ m, P m → member_key m = key) → length (filter P l) ≤ 1.
Proof.
  intros Hnd Hkey. induction l as [|a l IH]; simpl; [lia|].
  simpl in Hnd. apply NoDup_cons in Hnd as [Hnotin Hnd].
  destruct (decide (P a)) as [Ha|Ha].
  - rewrite filter_cons_True by done. rewrite filter_none; [simpl; lia|].
    intros m Hm HP. apply Hnotin. rewrite (Hkey a Ha), <- (Hkey m HP).
    by apply list_elem_of_fmap_2.
  - rewrite filter_cons_False by done. by apply IH.
Qed.

Lemma select_story_members_one d caller _id :
  unique_membership d → is_member d _id caller →
  length (select_story_members schema caller _id d) = 1.
Proof.
  intros Huq (m & Hm & Hsid & Huid).
  unfold select_story_members, visible_story_members.
  rewrite list_filter_filter.
  assert (length (filter (λ m, story_id m = _id ∧ member_rls schema SELECT caller d m = true)
                         (story_members d)) ≤ 1) as Hle.
  { apply (unique_key_at_most_one _ (_id, caller)); [exact Huq|].
    intros m' [Hsid' Hrls]. rewrite member_rls_SELECT in Hrls.
    apply bool_decide_eq_true in Hrls. unfold member_key. congruence. }
  assert (m ∈ filter (λ m, story_id m = _id ∧ member_rls schema SELECT caller d m = true)
                     (story_members d)) as Hin.
  { apply list_elem_of_filter. split; [|exact Hm]. split; [exact Hsid|].
    rewrite member_rls_SELECT. by apply bool_decide_eq_true. }
  destruct (filter _ (story_members d)) as [|? [|? ?]]; simpl in *;
    [by apply elem_of_nil in Hin | reflexivity | lia].
Qed.

Lemma fetchStories_listed d caller s n :
  unique_membership d → (s, n) ∈ fetchStories caller d →
  is_member d (id s) caller
  ∧ n = length (select_story_members schema caller (id s) d)
  ∧ n = 1.
Proof.
  intros Huq. unfold fetchStories.
  set (vis := visible_story_members schema caller d).
  set (storyIds := story_id <$> filter (λ m, user_id m = caller) vis).
  case_bool_decide as Hempty; [by intros ?%elem_of_nil|].
  intros (s0 & [= <- ->] & Hs0)%list_elem_of_fmap.
  rewrite merge_sort_Permutation in Hs0.
  apply list_elem_of_filter in Hs0 as [[Hin _] _].
  assert (is_member d (id s) caller) as Hmem.
  { apply list_elem_of_fmap in Hin as (m & Hsid & Hm).
    apply list_elem_of_filter in Hm as [Huid Hm].
    apply visible_story_members_spec in Hm as [Hm _]. by exists m. }
  pose proof (select_story_members_one d caller (id s) Huq Hmem) as Hone.
  split; [exact Hmem|].
  assert (length (filter (λ x, x = id s)
                    (story_id <$> filter (λ m, story_id m ∈ storyIds) vis)) = 1) as Hcount.
  { rewrite length_filter_fmap, list_filter_filter. rewrite <- Hone.
    unfold select_story_members. fold vis. f_equal.
    apply list_filter_iff. intros m. split; [tauto|]. intros Hsid. split; [exact Hsid|].
    by rewrite Hsid. }
  rewrite memberCounts_lookup. simpl. rewrite Hcount, Hone. simpl.
  by rewrite lookup_empty.
Qed.

Lemma fetchStories_lists_memberships d caller s :
  s ∈ stories d → is_member d (id s) caller → ∃ n, (s, n) ∈ fetchStories caller d.
Proof.
  intros Hs (m & Hm & Hsid & Huid). unfold fetchStories.
  set (vis := visible_story_members schema caller d).
  set (storyIds := story_id <$> filter (λ m, user_id m = caller) vis).
  assert (id s ∈ storyIds) as Hin.
  { rewrite <- Hsid. apply list_elem_of_fmap_2, list_elem_of_filter. split; [exact Huid|].
    by apply visible_story_members_spec. }
  case_bool_decide as Hempty.
  { destruct storyIds; [by apply elem_of_nil in Hin|discriminate]. }
  eexists. apply list_elem_of_fmap. exists s. split; [reflexivity|].
  rewrite merge_sort_Permutation. apply list_elem_of_filter. split; [|exact Hs].
  split; [exact Hin|]. apply canView_iff. right. by exists m.
Qed.

(** C10: under the unique constraint of [story_members], the stories
    listed by [fetchStories] are the stories the caller belongs to, and
    the [member_count] of each is the number of membership rows of that
    story the caller can read, which is 1 (the caller's own row) however
    many members the story has. *)
Theorem fetchStories_member_count d caller :
  unique_membership d →
  (∀ s n, (s, n) ∈ fetchStories caller d →
          is_member d (id s) caller
          ∧ n = length (select_story_members schema caller (id s) d)
          ∧ n = 1)
  ∧ (∀ s, s ∈ stories d → is_member d (id s) caller → (s, 1) ∈ fetchStories caller d).
Proof.
  intros Huq. split.
  - intros s n. by apply fetchStories_listed.
  - intros s Hs Hmem.
    destruct (fetchStories_lists_memberships d caller s Hs Hmem) as [n Hn].
    destruct (fetchStories_listed d caller s n Huq Hn) as (_ & _ & ->). exact Hn.
Qed.

Lemma fetchStories_member_count_witness :
  length (filter (λ m, story_id m = 1%N) (story_members crowded_db)) = 3
  ∧ fetchStories 20 crowded_db = [(sample_story 1 10 false, 1)]
  ∧ length (select_story_members schema 20 1 crowded_db) = 1.
Proof.
  split; [vm_compute; reflexivity|].
  assert (fetchStories 20 crowded_db = [(sample_story 1 10 false, 1)]) as Hfetch
    by (vm_compute; reflexivity).
  split; [exact Hfetch|].
  destruct (fetchStories_member_count crowded_db 20%N) as [Hcount _].
  - unfold unique_membership. apply (bool_decide_unpack _). vm_compute. exact I.
  - destruct (Hcount (sample_story 1 10 false) 1) as (_ & Hlen & _).
    + rewrite Hfetch. apply list_elem_of_here.
    + symmetry. exact Hlen.
Defined.

(** * Further properties of the schema and the client routines *)

(** ** List facts used below *)

Lemma filter_ext_in {A} (P Q : A → Prop) `{∀ x, Decision (P x)} `{∀ x, Decision (Q x)}
    (l : list A) :
  (∀ x, x ∈ l → (P x ↔ Q x)) → filter P l = filter Q l.
Proof.
  induction l as [|a l IH]; intros Hext; [done|].
  assert (filter P l = filter Q l) as Htl.
  { apply IH. intros x Hx. apply Hext. by right. }
  destruct (decide (P a)) as [Ha|Ha].
  - rewrite !filter_cons_True; [by rewrite Htl| |done]. apply Hext; [by left|done].
  - rewrite !filter_cons_False; [done| |done]. intros HQ. apply Ha, Hext; [by left|done].
Qed.

Lemma filter_only {A} (P : A → Prop) `{∀ x, Decision (P x)} (l : list A) (s : A) :
  NoDup l → s ∈ l → (∀ t, t ∈ l → (P t ↔ t = s)) → filter P l = [s].
Proof.
  induction l as [|a l IH]; intros Hnd Hs Hiff; [by apply elem_of_nil in Hs|].
  apply NoDup_cons in Hnd as [Hnotin Hnd].
  destruct (decide (P a)) as [Ha|Ha].
  - assert (a = s) as -> by (apply Hiff; [by left|done]).
    rewrite filter_cons_True by done.
    f_equal. apply filter_none. intros t Ht HP.
    apply Hiff in HP; [|by right]. by subst.
  - rewrite filter_cons_False by done.
    apply IH; [done| |].
    + apply elem_of_cons in Hs as [->|Hs]; [|exact Hs].
      exfalso. apply Ha. apply Hiff; [by left|done].
    + intros t Ht. apply Hiff. by right.
Qed.

Lemma key_at_most_one {A K} (key : A → K) (P : A → Prop) `{∀ x, Decision (P x)}
    (k : K) (l : list A) :
  NoDup (key <$> l) → (∀ x, P x → key x = k) → length (filter P l) ≤ 1.
Proof.
  intros Hnd Hkey. induction l as [|a l IH]; simpl; [lia|].
  simpl in Hnd. apply NoDup_cons in Hnd as [Hnotin Hnd].
  destruct (decide (P a)) as [Ha|Ha].
  - rewrite filter_cons_True by done. rewrite filter_none; [simpl; lia|].
    intros x Hx HP. apply Hnotin. rewrite (Hkey a Ha), <- (Hkey x HP).
    by apply list_elem_of_fmap_2.
  - rewrite filter_cons_False by done. by apply IH.
Qed.

(** ** Restrictive policies bind whatever the permissive ones allow *)

Lemma rls_check_restrictive {Src Row} (ps : list (policy Src Row)) (p : policy Src Row)
    cmd auth_uid src row :
  p ∈ ps → polcmd p = cmd → polpermissive p = false →
  rls_check ps cmd auth_uid src row = true → polqual p auth_uid src row = true.
Proof.
  intros Hp Hcmd Hres Hpass. unfold rls_check in Hpass.
  apply andb_prop in Hpass as [_ Hall]. rewrite forallb_elem_of in Hall.
  apply Hall. rewrite !list_elem_of_filter. done.
Qed.

Lemma visible_story_members_subset cat auth_uid d m :
  m ∈ visible_story_members cat auth_uid d → m ∈ story_members d.
Proof. unfold visible_story_members. rewrite list_elem_of_filter. tauto. Qed.

Lemma exists_owner_membership_any_catalog cat auth_uid d _id :
  exists_owner_membership (visible_story_members cat auth_uid d) _id auth_uid = true →
  is_owner d _id auth_uid.
Proof.
  intros (m & Hm & ? & ? & ?)%exists_owner_membership_spec.
  exists m. split; [by eapply visible_story_members_subset|done].
Qed.

(** In any catalog that still holds the two restrictive owner policies
    of the last migration, whatever permissive policies it has on
    [stories] and whatever SELECT policies on [story_members], a story
    row passes the UPDATE or DELETE check only for a caller who has an
    owner row on it. *)
Theorem owner_policies_bind_in_any_catalog cat caller d R :
  Only_owners_can_update_stories ∈ pol_stories cat →
  Only_owners_can_delete_stories ∈ pol_stories cat →
  (story_rls cat UPDATE caller d R = true → is_owner d (id R) caller)
  ∧ (story_rls cat DELETE caller d R = true → is_owner d (id R) caller).
Proof.
  intros Hupd Hdel. split; intros Hpass; unfold story_rls in Hpass.
  - apply (rls_check_restrictive _ _ _ _ _ _ Hupd eq_refl eq_refl) in Hpass.
    by apply (exists_owner_membership_any_catalog cat).
  - apply (rls_check_restrictive _ _ _ _ _ _ Hdel eq_refl eq_refl) in Hpass.
    by apply (exists_owner_membership_any_catalog cat).
Qed.

(** ** What a caller who is not an owner can change *)

Lemma update_stories_target_owner caller X d s :
  update_stories_target schema caller X d s = true → id s = X ∧ is_owner d X caller.
Proof.
  unfold update_stories_target. rewrite !andb_true_iff, bool_decide_eq_true.
  intros [[<- _] Hupd]. split; [done|]. by apply canUpdate_iff.
Qed.

Lemma delete_stories_target_owner caller X d s :
  delete_stories_target schema caller X d s = true → id s = X ∧ is_owner d X caller.
Proof.
  unfold delete_stories_target. rewrite !andb_true_iff, bool_decide_eq_true.
  intros [[<- _] Hdel]. split; [done|]. by apply canDelete_iff.
Qed.

Lemma update_stories_target_of_owner caller d s :
  is_owner d (id s) caller → update_stories_target schema caller (id s) d s = true.
Proof.
  intros Hown. unfold update_stories_target. rewrite !andb_true_iff, bool_decide_eq_true.
  split_and!; [done| |by apply canUpdate_iff].
  apply canView_iff. right. by apply is_owner_is_member.
Qed.

Lemma delete_stories_target_of_owner caller d s :
  is_owner d (id s) caller → delete_stories_target schema caller (id s) d s = true.
Proof.
  intros Hown. unfold delete_stories_target. rewrite !andb_true_iff, bool_decide_eq_true.
  split_and!; [done| |by apply canDelete_iff].
  apply canView_iff. right. by apply is_owner_is_member.
Qed.

(** A caller without an owner row on the story [X], be it a plain
    member or a viewer of a public story, changes nothing by an UPDATE
    or a DELETE of [X]: zero rows are affected, no error is raised and
    the tables are the same. *)
Theorem non_owner_update_delete_noop d caller X set now :
  constraints d → ¬ is_owner d X caller →
  exec schema caller (UPDATE_stories X set now) d = (d, affected 0)
  ∧ exec schema caller (DELETE_FROM_stories X) d = (d, affected 0).
Proof.
  intros Hc Hnot. unfold exec. split.
  - rewrite update_stories_no_target; [done|exact Hc|].
    intros s _. apply not_true_is_false. intros [_ Hown]%update_stories_target_owner. done.
  - rewrite delete_stories_no_target; [done|].
    intros s _. apply not_true_is_false. intros [_ Hown]%delete_stories_target_owner. done.
Qed.

Lemma non_owner_update_delete_noop_witness :
  let publish (s : story) := sample_story 1 10 true in
  exec schema 20 (UPDATE_stories 1 publish 5) crowded_db = (crowded_db, affected 0)
  ∧ exec schema 20 (DELETE_FROM_stories 1) crowded_db = (crowded_db, affected 0).
Proof.
  intros publish. apply (non_owner_update_delete_noop crowded_db 20%N 1%N publish 5%N).
  - split_and!.
    + apply NoDup_singleton.
    + unfold unique_membership. apply (bool_decide_unpack _). vm_compute. exact I.
    + intros m Hm. unfold crowded_db in Hm. simpl in Hm.
      repeat (apply elem_of_cons in Hm as [->|Hm]; [apply list_elem_of_here|]).
      by apply elem_of_nil in Hm.
  - intros (m & Hm & _ & Huid & Hrole). unfold crowded_db in Hm. simpl in Hm.
    repeat (apply elem_of_cons in Hm as [->|Hm]; [simpl in *; congruence|]).
    by apply elem_of_nil in Hm.
Defined.

Lemma owner_policies_bind_in_any_catalog_witness :
  (story_rls schema UPDATE 20 crowded_db (sample_story 1 10 false) = true →
   is_owner crowded_db 1 20)
  ∧ (story_rls schema DELETE 20 crowded_db (sample_story 1 10 false) = true →
     is_owner crowded_db 1 20).
Proof.
  apply (owner_policies_bind_in_any_catalog schema 20%N crowded_db (sample_story 1 10 false)).
  - unfold schema. simpl. do 4 apply list_elem_of_further. apply list_elem_of_here.
  - unfold schema. simpl. do 5 apply list_elem_of_further. apply list_elem_of_here.
Defined.

(** ** What an owner's UPDATE and DELETE do *)

Lemma story_by_id d s t :
  primary_key d → s ∈ stories d → t ∈ stories d → id t = id s → t = s.
Proof. intros Hpk Hs Ht Hid. by apply (NoDup_fmap_eq id (stories d)). Qed.

Lemma update_updated_at_column_id now s : id (update_updated_at_column now s) = id s.
Proof. reflexivity. Qed.

Lemma update_updated_at_column_is_public now s :
  is_public (update_updated_at_column now s) = is_public s.
Proof. reflexivity. Qed.

(** An owner's UPDATE that keeps the [id] and the [created_by] of the
    row (so that the foreign key to [auth.users], which the row already
    satisfies, is not in play) succeeds on exactly one row: the story
    becomes [set] of the old row stamped with [now], every other story
    and every membership row stays, and if the new row is public every
    caller can view it. *)
Theorem owner_update_succeeds d caller s set now :
  constraints d → s ∈ stories d → is_owner d (id s) caller → id (set s) = id s →
  created_by (set s) = created_by s →
  ∃ d', update_stories schema caller (id s) set now d = Ok (d', 1)
        ∧ story_members d' = story_members d
        ∧ update_updated_at_column now (set s) ∈ stories d'
        ∧ (∀ t, t ∈ stories d → id t ≠ id s → t ∈ stories d')
        ∧ (is_public (set s) = true →
           ∀ anyone, canView d' anyone (update_updated_at_column now (set s)) = true).
Proof.
  intros (Hpk & Huq & Hfk) Hs Hown Hid _.
  set (target := update_stories_target schema caller (id s) d).
  set (new := λ t, update_updated_at_column now (set t)).
  set (f := λ t, if target t then new t else t).
  assert (Htarget : ∀ t, t ∈ stories d → (target t = true ↔ t = s)).
  { intros t Ht. split.
    - intros [Heq _]%update_stories_target_owner. by apply (story_by_id d).
    - intros ->. by apply update_stories_target_of_owner. }
  assert (Hfilter : filter (λ t, target t = true) (stories d) = [s]).
  { apply filter_only; [by apply (NoDup_fmap_1 id)|done|done]. }
  assert (Hids : id <$> (f <$> stories d) = id <$> stories d).
  { rewrite <- list_fmap_compose. apply list_fmap_ext.
    intros i t Ht%list_elem_of_lookup_2. unfold f. simpl.
    destruct (target t) eqn:Ht'; [|done].
    apply Htarget in Ht' as ->; [|done]. unfold new. by rewrite update_updated_at_column_id. }
  assert (Hnew_upd : story_rls schema UPDATE caller d (new s) = true).
  { apply canUpdate_iff. unfold new. by rewrite update_updated_at_column_id, Hid. }
  assert (Hnew_sel : story_rls schema SELECT caller d (new s) = true).
  { apply canView_iff. right. unfold new. rewrite update_updated_at_column_id, Hid.
    by apply is_owner_is_member. }
  exists {| stories := f <$> stories d; story_members := story_members d |}.
  split_and!.
  - unfold update_stories. fold target. rewrite Hfilter. cbn [forallb].
    unfold new in Hnew_upd, Hnew_sel. unfold f, new in Hids.
    rewrite Hnew_upd, Hnew_sel. cbn [andb negb]. rewrite Hids.
    rewrite bool_decide_true by exact Hpk. cbn [negb].
    assert (forallb (λ m, bool_decide (story_id m ∈ id <$> stories d)) (story_members d)
            = true) as ->; [|done].
    apply forallb_elem_of. intros m Hm. apply bool_decide_eq_true. by apply Hfk.
  - done.
  - simpl. apply list_elem_of_fmap. exists s. split; [|done].
    unfold f. by rewrite (proj2 (Htarget s Hs) eq_refl).
  - intros t Ht Hne. simpl. apply list_elem_of_fmap. exists t. split; [|done].
    unfold f. destruct (target t) eqn:Ht'; [|done].
    apply Htarget in Ht' as ->; done.
  - intros Hpub anyone. apply canView_iff. left.
    by rewrite update_updated_at_column_is_public.
Qed.

Lemma owner_update_succeeds_witness :
  let publish (s : story) := sample_story 1 10 true in
  ∃ d', update_stories schema 10 1 publish 7 trip_db = Ok (d', 1)
        ∧ story_members d' = story_members trip_db
        ∧ update_updated_at_column 7 (sample_story 1 10 true) ∈ stories d'
        ∧ (∀ t, t ∈ stories trip_db → id t ≠ 1%N → t ∈ stories d')
        ∧ (is_public (sample_story 1 10 true) = true →
           ∀ anyone, canView d' anyone (update_updated_at_column 7 (sample_story 1 10 true))
                     = true).
Proof.
  intros publish.
  apply (owner_update_succeeds trip_db 10%N (sample_story 1 10 false) publish 7%N).
  - apply trip_db_constraints.
  - apply list_elem_of_here.
  - exists {| story_id := 1; user_id := 10; role := owner |}.
    split; [apply list_elem_of_here|repeat split].
  - reflexivity.
  - reflexivity.
Defined.

Lemma owner_delete_cascades_eq d caller s :
  constraints d → s ∈ stories d → is_owner d (id s) caller →
  delete_stories schema caller (id s) d = (without_story (id s) d, 1).
Proof.
  intros (Hpk & Huq & Hfk) Hs Hown. unfold delete_stories, without_story.
  set (target := delete_stories_target schema caller (id s) d).
  assert (Htarget : ∀ t, t ∈ stories d → (target t = true ↔ t = s)).
  { intros t Ht. split.
    - intros [Heq _]%delete_stories_target_owner. by apply (story_by_id d).
    - intros ->. by apply delete_stories_target_of_owner. }
  assert (Hfilter : filter (λ t, target t = true) (stories d) = [s]).
  { apply filter_only; [by apply (NoDup_fmap_1 id)|done|done]. }
  rewrite Hfilter. simpl. f_equal. f_equal.
  - apply filter_ext_in. intros t Ht. rewrite <- not_true_iff_false, (Htarget t Ht).
    split; [|by intros Hne ->].
    intros Hne Hid. apply Hne. by apply (story_by_id d).
  - apply filter_ext_in. intros m _. by rewrite list_elem_of_singleton.
Qed.


(** An owner's DELETE of a story removes that story and, by the cascade,
    all of its membership rows, and nothing else: the result is the
    tables with the story absent, and one row is reported. *)
Theorem owner_delete_cascades d caller s :
  constraints d → s ∈ stories d → is_owner d (id s) caller →
  delete_stories schema caller (id s) d = (without_story (id s) d, 1).
Proof.
  intros Hc Hs Hown. by apply owner_delete_cascades_eq.
Qed.

Lemma owner_delete_cascades_witness :
  delete_stories schema 10 1 crowded_db = (empty_db, 1).
Proof.
  assert (without_story 1 crowded_db = empty_db) as <- by (vm_compute; reflexivity).
  apply (owner_delete_cascades crowded_db 10%N (sample_story 1 10 false)).
  - split_and!.
    + apply NoDup_singleton.
    + unfold unique_membership. apply (bool_decide_unpack _). vm_compute. exact I.
    + intros m Hm. unfold crowded_db in Hm. simpl in Hm.
      repeat (apply elem_of_cons in Hm as [->|Hm]; [apply list_elem_of_here|]).
      by apply elem_of_nil in Hm.
  - apply list_elem_of_here.
  - exists {| story_id := 1; user_id := 10; role := owner |}.
    split; [apply list_elem_of_here|repeat split].
Defined.

(** A successful UPDATE never changes a story id, never touches
    [story_members], and affects at most one row: an UPDATE that sets
    another id is refused, by the policies checked again on the new
    row, by the primary key, or by the foreign key of the caller's own
    owner row. *)
Theorem update_keeps_story_ids d caller X set now d' n :
  constraints d → update_stories schema caller X set now d = Ok (d', n) →
  id <$> stories d' = id <$> stories d
  ∧ story_members d' = story_members d
  ∧ n ≤ 1.
Proof.
  intros (Hpk & Huq & Hfk). unfold update_stories.
  set (target := update_stories_target schema caller X d).
  set (new := λ t, update_updated_at_column now (set t)).
  set (f := λ t, if target t then new t else t).
  destruct (forallb _ (filter _ (stories d))) eqn:Hcheck; simpl; [|done].
  case_bool_decide as Hpk'; simpl; [|done].
  destruct (forallb _ (story_members d)) eqn:Hfk'; simpl; [|done].
  intros [= <- <-]. simpl. split_and!; [|done|].
  - rewrite <- list_fmap_compose. apply list_fmap_ext.
    intros i t Ht%list_elem_of_lookup_2. unfold f. simpl.
    destruct (target t) eqn:Ht'; [|done].
    destruct (update_stories_target_owner _ _ _ _ Ht') as [Hid (m & Hm & Hsid & _)].
    rewrite forallb_elem_of in Hfk'. specialize (Hfk' m Hm).
    apply bool_decide_eq_true in Hfk'.
    apply list_elem_of_fmap in Hfk' as (t2' & Hid2 & (t2 & -> & Ht2)%list_elem_of_fmap).
    unfold f in Hid2. destruct (target t2) eqn:Ht2'.
    + destruct (update_stories_target_owner _ _ _ _ Ht2') as [Hid2' _].
      assert (t2 = t) as -> by (apply (story_by_id d); [done..|congruence]).
      congruence.
    + assert (t2 = t) as -> by (apply (story_by_id d); [done..|congruence]).
      congruence.
  - apply (key_at_most_one id _ X); [exact Hpk|].
    by intros t [Hid _]%update_stories_target_owner.
Qed.

Lemma update_keeps_story_ids_witness :
  let move (s : story) := sample_story 2 10 false in
  update_stories schema 10 1 move 7 trip_db = Err insufficient_privilege
  ∧ ∀ d' n, update_stories schema 10 1 (λ s, sample_story 1 10 true) 7 trip_db = Ok (d', n) →
            id <$> stories d' = [1%N].
Proof.
  intros move. split; [vm_compute; reflexivity|].
  intros d' n Hupd.
  destruct (update_keeps_story_ids trip_db 10%N 1%N (λ s, sample_story 1 10 true) 7%N d' n)
    as (Hids & _ & _).
  - apply trip_db_constraints.
  - exact Hupd.
  - exact Hids.
Defined.

(** ** What a request leaves alone *)

Lemma story_members_filter_subset (P : story_member → Prop) `{∀ m, Decision (P m)}
    (l : list story_member) (m : story_member) :
  m ∈ filter P l → m ∈ l.
Proof. rewrite list_elem_of_filter. tauto. Qed.

Lemma update_stories_Ok_members caller X set now d d' n :
  update_stories schema caller X set now d = Ok (d', n) →
  story_members d' = story_members d
  ∧ stories d' = (λ s, if update_stories_target schema caller X d s
                       then update_updated_at_column now (set s) else s) <$> stories d.
Proof.
  unfold update_stories.
  destruct (forallb _ (filter _ (stories d))); simpl; [|done].
  case_bool_decide; simpl; [|done].
  destruct (forallb _ (story_members d)); simpl; [|done].
  by intros [= <- _].
Qed.

(** Whatever an authenticated caller sends, every story on which the
    caller has no owner row is still in [stories] afterwards, row for
    row as it was. *)
Theorem stories_of_others_untouched d caller req s :
  s ∈ stories d → ¬ is_owner d (id s) caller → s ∈ stories (exec schema caller req d).1.
Proof.
  intros Hs Hnot.
  destruct req as [NEW [|]|NEW|sid uid|X set now|X|X|sid]; unfold exec.
  - destruct (insert_stories_returning schema caller NEW d) as [[d' row]|e] eqn:Hret;
      [|done].
    apply insert_stories_returning_Ok in Hret as (Hins & _ & _). simpl.
    apply insert_stories_Ok in Hins as (_ & _ & ->).
    rewrite handle_new_story_owner_membership_stories. simpl. apply elem_of_app. by left.
  - destruct (insert_stories schema caller NEW d) as [d'|e] eqn:Hins; [|done]. simpl.
    apply insert_stories_Ok in Hins as (_ & _ & ->).
    rewrite handle_new_story_owner_membership_stories. simpl. apply elem_of_app. by left.
  - destruct (insert_story_members schema caller NEW d) as [d'|e] eqn:Hins; [|done]. simpl.
    by apply insert_story_members_Ok in Hins as (_ & _ & _ & ->).
  - by rewrite delete_story_members_noop.
  - destruct (update_stories schema caller X set now d) as [[d' n]|e] eqn:Hupd; [|done].
    simpl. apply update_stories_Ok_members in Hupd as [_ ->].
    apply list_elem_of_fmap. exists s. split; [|done].
    destruct (update_stories_target schema caller X d s) eqn:Ht; [|done].
    apply update_stories_target_owner in Ht as [<- Hown]. done.
  - unfold delete_stories. simpl. apply list_elem_of_filter. split; [|done].
    apply not_true_is_false. intros [<- Hown]%delete_stories_target_owner. done.
  - done.
  - done.
Qed.

Lemma stories_of_others_untouched_witness :
  sample_story 1 10 false ∈ stories (exec schema 20 (DELETE_FROM_stories 1) crowded_db).1.
Proof.
  apply (stories_of_others_untouched crowded_db 20%N (DELETE_FROM_stories 1)
           (sample_story 1 10 false)).
  - apply list_elem_of_here.
  - intros (m & Hm & _ & Huid & Hrole). unfold crowded_db in Hm. simpl in Hm.
    repeat (apply elem_of_cons in Hm as [->|Hm]; [simpl in *; congruence|]).
    by apply elem_of_nil in Hm.
Defined.

(** A membership row disappears only in one way: an owner of its story
    deletes the story. *)
Theorem membership_removed_only_with_story d caller req m :
  m ∈ story_members d → m ∉ story_members (exec schema caller req d).1 →
  ∃ X, req = DELETE_FROM_stories X ∧ story_id m = X ∧ is_owner d X caller.
Proof.
  intros Hm Hgone.
  destruct req as [NEW [|]|NEW|sid uid|X set now|X|X|sid]; unfold exec in Hgone.
  - exfalso. apply Hgone.
    destruct (insert_stories_returning schema caller NEW d) as [[d' row]|e] eqn:Hret;
      [|done].
    apply insert_stories_returning_Ok in Hret as (Hins & _ & _). simpl.
    apply insert_stories_Ok in Hins as (_ & _ & ->).
    by apply handle_new_story_owner_membership_mono.
  - exfalso. apply Hgone.
    destruct (insert_stories schema caller NEW d) as [d'|e] eqn:Hins; [|done]. simpl.
    apply insert_stories_Ok in Hins as (_ & _ & ->).
    by apply handle_new_story_owner_membership_mono.
  - exfalso. apply Hgone.
    destruct (insert_story_members schema caller NEW d) as [d'|e] eqn:Hins; [|done]. simpl.
    apply insert_story_members_Ok in Hins as (_ & _ & _ & ->). simpl.
    apply elem_of_app. by left.
  - exfalso. apply Hgone. by rewrite delete_story_members_noop.
  - exfalso. apply Hgone.
    destruct (update_stories schema caller X set now d) as [[d' n]|e] eqn:Hupd; [|done].
    simpl. by apply update_stories_Ok_members in Hupd as [-> _].
  - exists X. split; [done|]. unfold delete_stories in Hgone. simpl in Hgone.
    rewrite list_elem_of_filter in Hgone.
    destruct (decide (story_id m ∈ id <$> filter
                (λ s, delete_stories_target schema caller X d s = true) (stories d)))
      as [Hin|Hnotin]; [|by destruct Hgone].
    apply list_elem_of_fmap in Hin as (s & Hid & [Ht _]%list_elem_of_filter).
    apply delete_stories_target_owner in Ht as [HX Hown]. split; [congruence|done].
  - by destruct Hgone.
  - by destruct Hgone.
Qed.

Lemma membership_removed_only_with_story_witness :
  ∃ X, DELETE_FROM_stories 1 = DELETE_FROM_stories X
       ∧ story_id {| story_id := 1; user_id := 20; role := member |} = X
       ∧ is_owner crowded_db X 10.
Proof.
  apply (membership_removed_only_with_story crowded_db 10%N (DELETE_FROM_stories 1)
           {| story_id := 1; user_id := 20; role := member |}).
  - apply list_elem_of_further, list_elem_of_here.
  - assert ((exec schema 10 (DELETE_FROM_stories 1) crowded_db).1 = empty_db) as ->
      by (vm_compute; reflexivity).
    apply not_elem_of_nil.
Defined.

(** ** Rows the policies let in *)

Lemma exec_new_member d caller req m :
  m ∈ story_members (exec schema caller req d).1 →
  m ∈ story_members d ∨ (user_id m = caller ∧ role m = owner).
Proof.
  destruct req as [NEW [|]|NEW|sid uid|X set now|X|X|sid]; unfold exec.
  - destruct (insert_stories_returning schema caller NEW d) as [[d' row]|e] eqn:Hret;
      [|by left].
    apply insert_stories_returning_Ok in Hret as (Hins & _ & _). simpl.
    apply insert_stories_Ok in Hins as (-> & _ & ->).
    intros [Hm| ->]%handle_new_story_owner_membership_inv; [by left|by right].
  - destruct (insert_stories schema caller NEW d) as [d'|e] eqn:Hins; [|by left]. simpl.
    apply insert_stories_Ok in Hins as (-> & _ & ->).
    intros [Hm| ->]%handle_new_story_owner_membership_inv; [by left|by right].
  - destruct (insert_story_members schema caller NEW d) as [d'|e] eqn:Hins; [|by left].
    simpl. apply insert_story_members_Ok in Hins as (Hcan & _ & _ & ->). simpl.
    intros [Hm| ->%list_elem_of_singleton]%elem_of_app; [by left|right].
    unfold canInsertMember in Hcan. rewrite member_rls_INSERT in Hcan.
    apply andb_prop in Hcan as [[Hu Hr]%andb_prop _].
    by apply bool_decide_eq_true in Hu, Hr.
  - rewrite delete_story_members_noop. by left.
  - destruct (update_stories schema caller X set now d) as [[d' n]|e] eqn:Hupd; [|by left].
    simpl. apply update_stories_Ok_members in Hupd as [-> _]. by left.
  - unfold delete_stories. simpl. intros Hm%story_members_filter_subset. by left.
  - by left.
  - by left.
Qed.

(** No request ever writes a membership row for a user other than the
    caller or with the role [member]; hence in every state reachable
    from the empty tables all membership rows are owner rows. *)
Theorem reachable_only_owner_rows d :
  reachable d →
  (∀ m, m ∈ story_members d → role m = owner)
  ∧ (∀ caller req m, m ∈ story_members (exec schema caller req d).1 →
                     m ∈ story_members d ∨ (user_id m = caller ∧ role m = owner)).
Proof.
  intros Hd. split; [|intros caller req m; apply exec_new_member].
  induction Hd as [|d caller req _ IH]; intros m Hm.
  - by apply elem_of_nil in Hm.
  - apply exec_new_member in Hm as [Hm|[_ Hr]]; [by apply IH|done].
Qed.

Lemma reachable_only_owner_rows_witness :
  Forall (λ m, role m = owner) (story_members trip_history).
Proof.
  destruct (reachable_only_owner_rows trip_history trip_history_reachable) as [Hall _].
  apply Forall_forall. exact Hall.
Defined.

(** ** Story creation and used ids *)

(** A caller creating a story in their own name, with a plain insert,
    gets [unique_violation] exactly when a story with that id exists,
    whether or not the caller can view that story.  With [RETURNING]
    the SELECT policy is checked on the new row first: the answer is
    [unique_violation] exactly when the id exists and the new row passes
    that policy (it is public, or the caller has a membership under
    that id); a private row of a non-member is refused by the policy,
    used id or not. *)
Theorem insert_stories_used_id d caller NEW :
  created_by NEW = caller →
  ((exec schema caller (INSERT_INTO_stories NEW false) d).2 = error unique_violation
   ↔ id NEW ∈ id <$> stories d)
  ∧ ((exec schema caller (INSERT_INTO_stories NEW true) d).2 = error unique_violation
     ↔ id NEW ∈ id <$> stories d ∧ canView d caller NEW = true)
  ∧ (canView d caller NEW = false →
     exec schema caller (INSERT_INTO_stories NEW true) d = (d, error insufficient_privilege)).
Proof.
  intros Hby.
  assert (Hcases : (id NEW ∈ id <$> stories d
                    ∧ insert_stories schema caller NEW d = Err unique_violation)
                   ∨ ((id NEW ∉ id <$> stories d)
                      ∧ ∃ d', insert_stories schema caller NEW d = Ok d')).
  { unfold insert_stories. rewrite story_rls_INSERT, bool_decide_true by done. simpl.
    case_bool_decide; [left|right]; eauto. }
  unfold exec, insert_stories_returning, canView.
  destruct (story_rls schema SELECT caller d NEW); simpl;
    destruct Hcases as [[Hin ->]|[Hnotin [d' ->]]]; simpl;
    split_and!; try done; try (split; [done|by intros []]); try (by split).
Qed.

Lemma insert_stories_used_id_witness :
  canView trip_db 20 (sample_story 1 10 false) = false
  ∧ (exec schema 20 (INSERT_INTO_stories (sample_story 1 20 true) false) trip_db).2
    = error unique_violation
  ∧ (exec schema 20 (INSERT_INTO_stories (sample_story 1 20 true) true) trip_db).2
    = error unique_violation
  ∧ exec schema 20 (INSERT_INTO_stories (sample_story 1 20 false) true) trip_db
    = (trip_db, error insufficient_privilege).
Proof.
  split; [vm_compute; reflexivity|].
  destruct (insert_stories_used_id trip_db 20%N (sample_story 1 20 true) eq_refl)
    as (Hplain & Hret & _).
  destruct (insert_stories_used_id trip_db 20%N (sample_story 1 20 false) eq_refl)
    as (_ & _ & Hrefused).
  split_and!.
  - apply Hplain. apply list_elem_of_here.
  - apply Hret. split; [apply list_elem_of_here|vm_compute; reflexivity].
  - apply Hrefused. vm_compute. reflexivity.
Defined.

(** ** The migrations as a sequence *)

Lemma migrations_before_last :
  exec_migration empty_catalog (migration_20260115205311 ++ migration_20260119200546)
  = Some schema_20260119200546.
Proof. vm_compute. reflexivity. Qed.

Section policy_lists.
Context {Src Row : Type}.
Implicit Types (ps qs : list (policy Src Row)) (p : policy Src Row) (n : string).

Lemma has_policy_true n ps : has_policy n ps = true ↔ ∃ p, p ∈ ps ∧ polname p = n.
Proof.
  unfold has_policy. rewrite existsb_elem_of. by setoid_rewrite String.eqb_eq.
Qed.

Lemma elem_of_drop_policy n ps p : p ∈ drop_policy n ps ↔ p ∈ ps ∧ polname p ≠ n.
Proof.
  unfold drop_policy. rewrite !list_elem_of_In, filter_In, negb_true_iff, String.eqb_neq.
  done.
Qed.

Lemma drop_policy_app n ps qs :
  drop_policy n (ps ++ qs) = drop_policy n ps ++ drop_policy n qs.
Proof. apply List.filter_app. Qed.

Lemma drop_policy_absent n ps : has_policy n ps = false → drop_policy n ps = ps.
Proof.
  induction ps as [|p ps IH]; simpl; [done|].
  intros [Hp Hps]%orb_false_elim. rewrite Hp. simpl. f_equal. by apply IH.
Qed.

Lemma has_policy_drop_policy_ne n n' ps :
  n ≠ n' → has_policy n (drop_policy n' ps) = has_policy n ps.
Proof.
  intros Hne. apply bool_eq_iff. rewrite !has_policy_true.
  setoid_rewrite elem_of_drop_policy. split.
  - intros (p & [Hp _] & Hn). by exists p.
  - intros (p & Hp & Hn). exists p. split_and!; [done|congruence|done].
Qed.
End policy_lists.

Ltac policy_absent :=
  apply not_true_is_false;
  let p := fresh "p" in let Hp := fresh "Hp" in let Hn := fresh "Hn" in
  intros (p & Hp & Hn)%has_policy_true;
  repeat first
    [ apply elem_of_drop_policy in Hp as [Hp ?]
    | apply elem_of_app in Hp as [Hp|Hp]
    | apply elem_of_cons in Hp as [->|Hp]
    | apply elem_of_nil in Hp ];
  first [ contradiction | congruence | discriminate Hn ].

Ltac create_policy_step :=
  cbn [exec_migration exec_ddl pol_stories pol_story_members polname];
  try match goal with
      | |- context [has_policy ?n ?ps] =>
          let H := fresh in
          assert (H : has_policy n ps = false) by policy_absent;
          rewrite H; clear H
      end.

Ltac drop_absent_step :=
  match goal with
  | |- context [drop_policy ?n ?ps] =>
      rewrite (drop_policy_absent n ps) by policy_absent
  end.

Ltac drop_own_step :=
  match goal with
  | |- context [drop_policy ?n [?p]] =>
      let T := type of p in change (drop_policy n [p]) with (@nil T)
  end.

(** The policy statements of the last migration are re-runnable: from
    any catalog they succeed, and run again on their own result they
    succeed and leave it as it is. *)
Theorem migration_20260119203607_rerunnable c :
  ∃ c', exec_migration c migration_20260119203607 = Some c'
        ∧ exec_migration c' migration_20260119203607 = Some c'.
Proof.
  eexists. split.
  - unfold migration_20260119203607. repeat create_policy_step. reflexivity.
  - unfold migration_20260119203607. repeat create_policy_step.
    f_equal. unfold stories_policy, story_members_policy in *. f_equal.
    + rewrite !drop_policy_app. repeat drop_absent_step. repeat drop_own_step.
      rewrite !app_nil_r. reflexivity.
    + rewrite !drop_policy_app. repeat drop_absent_step. repeat drop_own_step.
      rewrite !app_nil_r. reflexivity.
Qed.

(** The policy statements of the second migration are not: once
    "Users can view their own memberships" exists on [story_members],
    which both that migration and the last one create, running it
    fails at its first [CREATE POLICY]. *)
Theorem migration_20260119200546_not_rerunnable c :
  has_policy "Users can view their own memberships" (pol_story_members c) = true →
  exec_migration c migration_20260119200546 = None.
Proof.
  intros Hhas. unfold migration_20260119200546.
  cbn [exec_migration exec_ddl pol_stories pol_story_members polname
       Users_can_view_their_own_memberships].
  rewrite !has_policy_drop_policy_ne by discriminate. by rewrite Hhas.
Qed.

Lemma migration_20260119200546_not_rerunnable_witness :
  exec_migration schema_20260119200546 migration_20260119200546 = None
  ∧ exec_migration schema migration_20260119200546 = None.
Proof.
  split.
  - apply (migration_20260119200546_not_rerunnable schema_20260119200546).
    vm_compute. reflexivity.
  - apply (migration_20260119200546_not_rerunnable schema). vm_compute. reflexivity.
Defined.

(** ** Membership removal before the last migration *)

Lemma member_rls_DELETE_before_last auth_uid d m :
  member_rls schema_20260119200546 DELETE auth_uid d m
  = is_story_owner d (story_id m) auth_uid.
Proof.
  unfold member_rls, schema_20260119200546, rls_check. simpl.
  by rewrite orb_false_r, andb_true_r.
Qed.

Lemma member_rls_SELECT_before_last auth_uid d m :
  member_rls schema_20260119200546 SELECT auth_uid d m = bool_decide (auth_uid = user_id m).
Proof.
  unfold member_rls, schema_20260119200546, rls_check. simpl.
  by rewrite orb_false_r, andb_true_r.
Qed.

(** With the policies of the second migration an owner could remove
    their own membership row: if the caller is the only owner of the
    story [X], the removal leaves [X] with no owner row at all.  With
    the policies of the last migration the same request removes
    nothing. *)
Theorem sole_owner_could_leave_before_last_migration d caller X :
  is_owner d X caller →
  (∀ m, m ∈ story_members d → story_id m = X → role m = owner → user_id m = caller) →
  let d' := (delete_story_members schema_20260119200546 caller X caller d).1 in
  stories d' = stories d
  ∧ (∀ m, m ∈ story_members d' ↔
          m ∈ story_members d ∧ ¬ (story_id m = X ∧ user_id m = caller))
  ∧ ¬ is_owner d' X caller
  ∧ (¬ ∃ m, m ∈ story_members d' ∧ story_id m = X ∧ role m = owner)
  ∧ delete_story_members schema caller X caller d = (d, 0).
Proof.
  intros Hown Hsole d'.
  assert (Htarget : ∀ m, delete_story_members_target schema_20260119200546 caller X caller
                           d m = false ↔ ¬ (story_id m = X ∧ user_id m = caller)).
  { intros m. rewrite <- not_true_iff_false. unfold delete_story_members_target.
    rewrite !andb_true_iff, !bool_decide_eq_true, member_rls_SELECT_before_last,
      member_rls_DELETE_before_last, bool_decide_eq_true.
    split; intros Hn H; apply Hn; [|tauto].
    destruct H as [-> ->]. split_and!; [done..|]. by apply is_story_owner_spec. }
  assert (Hmem : ∀ m, m ∈ story_members d' ↔
                      m ∈ story_members d ∧ ¬ (story_id m = X ∧ user_id m = caller)).
  { intros m. unfold d', delete_story_members. simpl.
    rewrite list_elem_of_filter, Htarget. tauto. }
  split_and!.
  - done.
  - exact Hmem.
  - intros (m & [Hm Hnot]%Hmem & Hsid & Huid & _). apply Hnot. done.
  - intros (m & [Hm Hnot]%Hmem & Hsid & Hrole). apply Hnot. split; [done|].
    by apply Hsole.
  - apply delete_story_members_noop.
Qed.

Lemma sole_owner_could_leave_before_last_migration_witness :
  (delete_story_members schema_20260119200546 10 1 10 crowded_db).1
  = {| stories := [sample_story 1 10 false];
       story_members := [{| story_id := 1; user_id := 20; role := member |};
                         {| story_id := 1; user_id := 30; role := member |}] |}
  ∧ ¬ is_owner (delete_story_members schema_20260119200546 10 1 10 crowded_db).1 1 10.
Proof.
  split; [vm_compute; reflexivity|].
  destruct (sole_owner_could_leave_before_last_migration crowded_db 10%N 1%N)
    as (_ & _ & Hnot & _).
  - exists {| story_id := 1; user_id := 10; role := owner |}.
    split; [apply list_elem_of_here|repeat split].
  - intros m Hm _ Hrole. unfold crowded_db in Hm. simpl in Hm.
    repeat (apply elem_of_cons in Hm as [->|Hm]; [simpl in *; congruence|]).
    by apply elem_of_nil in Hm.
  - exact Hnot.
Defined.

(** ** The story page *)

Lemma select_stories_visible d caller s :
  primary_key d → s ∈ stories d → canView d caller s = true →
  select_stories schema caller (id s) d = [s].
Proof.
  intros Hpk Hs Hview. unfold select_stories.
  apply filter_only; [by apply (NoDup_fmap_1 id)|done|].
  intros t Ht. split.
  - intros [Hid _]. by apply (story_by_id d).
  - intros ->. done.
Qed.

(** For a story the caller can view, the first query of the page
    returns that story, but the member query cannot be answered: it
    embeds [profiles] through [story_members_user_id_fkey], a foreign
    key to [auth.users], and no foreign key joins [story_members] and
    [profiles].  The page ends in "Error loading story" for a story the
    caller can view too. *)
Theorem fetchStoryDetails_of_viewer d caller s :
  primary_key d → s ∈ stories d → canView d caller s = true →
  select_stories schema caller (id s) d = [s]
  ∧ embed_relationship rel_story_members rel_profiles "story_members_user_id_fkey" = None
  ∧ (∀ fk, fk ∈ foreign_key_constraints →
           ¬ (conrelid fk = rel_story_members ∧ confrelid fk = rel_profiles)
           ∧ ¬ (conrelid fk = rel_profiles ∧ confrelid fk = rel_story_members))
  ∧ fetchStoryDetails caller (id s) d = Error_loading_story.
Proof.
  intros Hpk Hs Hview.
  pose proof (select_stories_visible d caller s Hpk Hs Hview) as Hsel.
  split_and!.
  - exact Hsel.
  - reflexivity.
  - intros fk Hfk. unfold foreign_key_constraints in Hfk.
    repeat (apply elem_of_cons in Hfk as [->|Hfk]; [split; intros [? ?]; discriminate|]).
    by apply elem_of_nil in Hfk.
  - unfold fetchStoryDetails. by rewrite Hsel.
Qed.

Lemma fetchStoryDetails_of_viewer_witness :
  select_stories schema 10 1 crowded_db = [sample_story 1 10 false]
  ∧ fetchStoryDetails 10 1 crowded_db = Error_loading_story.
Proof.
  destruct (fetchStoryDetails_of_viewer crowded_db 10%N (sample_story 1 10 false))
    as (Hsel & _ & _ & Hpage).
  - apply NoDup_singleton.
  - apply list_elem_of_here.
  - vm_compute. reflexivity.
  - split; assumption.
Defined.



(** ** The dashboard list *)

#[global] Instance created_at_descending_total : Total created_at_descending.
Proof. intros a b. unfold created_at_descending. lia. Qed.

Lemma own_story_ids caller d :
  story_id <$> filter (λ m, user_id m = caller) (visible_story_members schema caller d)
  = story_id <$> filter (λ m, user_id m = caller) (story_members d).
Proof.
  f_equal. unfold visible_story_members. rewrite list_filter_filter.
  apply list_filter_iff. intros m. rewrite member_rls_SELECT, bool_decide_eq_true.
  split; [tauto|]. intros Hu. split; congruence.
Qed.

(** The dashboard lists the stories on which the caller has a
    membership row, those and no others (a public story of somebody
    else is not listed), each as often as it is in [stories], ordered
    by [created_at] with the newest first. *)
Theorem fetchStories_lists_own_stories_newest_first caller d :
  Sorted created_at_descending (fetchStories caller d).*1
  ∧ (fetchStories caller d).*1
    ≡ₚ filter (λ s, id s ∈ story_id <$> filter (λ m, user_id m = caller) (story_members d))
              (stories d).
Proof.
  unfold fetchStories. rewrite own_story_ids.
  set (storyIds := story_id <$> filter (λ m, user_id m = caller) (story_members d)).
  case_bool_decide as Hempty.
  - split; [constructor|]. simpl.
    destruct storyIds; [|discriminate].
    rewrite filter_none; [done|]. intros s _ Hin. by apply elem_of_nil in Hin.
  - rewrite <- list_fmap_compose.
    assert (∀ l : list story,
              (fst ∘ (λ story0, (story0, or_1 (foldl memberCounts_add ∅
                 (story_id <$> filter (λ m, story_id m ∈ storyIds)
                    (visible_story_members schema caller d)) !! id story0)))) <$> l = l)
      as -> by (intros l; induction l as [|a l IH]; [done|];
                rewrite fmap_cons; f_equal; exact IH).
    split; [apply Sorted_merge_sort, _|].
    rewrite merge_sort_Permutation.
    erewrite filter_ext_in; [reflexivity|].
    intros s _. split; [tauto|]. intros Hin. split; [done|].
    apply canView_iff. right.
    apply list_elem_of_fmap in Hin as (m & -> & [Hu Hm]%list_elem_of_filter).
    by exists m.
Qed.

Lemma fetchStories_lists_own_stories_newest_first_witness :
  fetchStories 10 crowded_db = [(sample_story 1 10 false, 1)]
  ∧ Sorted created_at_descending (fetchStories 10 crowded_db).*1.
Proof.
  split; [vm_compute; reflexivity|].
  apply (fetchStories_lists_own_stories_newest_first 10%N crowded_db).
Defined.

(** ** The story form, then the dashboard *)

(** On tables that satisfy their constraints the story form never
    reports success: its outcome is always "Error creating story", and
    with an id that is already used nothing is written.  For a private
    story nothing is ever written, and under an unused id the error is
    the policy's refusal of the story insert.  For a public story the
    error is always [unique_violation]; under an unused id the story has
    been created all the same, with the form's values and the user as
    its creator, and the dashboard of that user lists it with a member
    count of 1. *)
Theorem handleSubmit_never_reports_success d user title' description' isPublic
    coverImageUrl gen_random_uuid now :
  constraints d →
  ∃ d1 e,
    handleSubmit user title' description' isPublic coverImageUrl gen_random_uuid now d
    = (d1, Error_creating_story e)
    ∧ (gen_random_uuid ∈ id <$> stories d → d1 = d)
    ∧ (isPublic = false →
       d1 = d ∧ ((gen_random_uuid ∉ id <$> stories d) → e = insufficient_privilege))
    ∧ (isPublic = true →
       e = unique_violation
       ∧ ((gen_random_uuid ∉ id <$> stories d) →
          ∃ NEW, NEW ∈ stories d1 ∧ id NEW = gen_random_uuid ∧ created_by NEW = user
                 ∧ title NEW = title' ∧ is_public NEW = true
                 ∧ cover_image_url NEW = coverImageUrl
                 ∧ (NEW, 1) ∈ fetchStories user d1)).
Proof.
  intros (Hpk & Huq & Hfk). unfold handleSubmit.
  set (NEW := {| id := gen_random_uuid; title := title'; description := _;
                 cover_image_url := coverImageUrl; is_public := isPublic;
                 created_by := user; created_at := now; updated_at := now |}).
  destruct (decide (gen_random_uuid ∈ id <$> stories d)) as [Hused|Hfresh].
  - assert (Hins : insert_stories schema user NEW d = Err unique_violation).
    { unfold insert_stories. rewrite story_rls_INSERT, bool_decide_true by reflexivity.
      simpl. by rewrite bool_decide_true. }
    unfold insert_stories_returning. rewrite Hins.
    destruct (story_rls schema SELECT user d NEW) eqn:Hsel; simpl.
    + exists d, unique_violation. split_and!; [done|done|by intros _|].
      intros _. split; [done|]. intros Hne. by destruct Hne.
    + exists d, insufficient_privilege. split_and!; [done|done|by intros _|].
      intros ->. exfalso.
      assert (canView d user NEW = true) as Hview by (apply canView_iff; by left).
      unfold canView in Hview. congruence.
  - destruct (insert_stories_returning_as_creator d user NEW Hfk eq_refl Hfresh)
      as [Hins Hret].
    set (d1 := handle_new_story_owner_membership NEW _) in *.
    rewrite Hret. change (is_public NEW) with isPublic. destruct isPublic; cbv beta iota.
    + destruct (insert_stories_creator_is_owner d user NEW d1 Hfk Hins) as (Hs & Hm & _).
      assert (Huq1 : unique_membership d1)
        by (by apply handle_new_story_owner_membership_unique).
      exists d1, unique_violation. split_and!; [|done|done|].
      * rewrite insert_story_members_duplicate
          by (by apply (list_elem_of_fmap_2 member_key) in Hm).
        assert (canInsertMember d1 user
                  {| story_id := id NEW; user_id := user; role := owner |} = true)
          as ->; [|reflexivity].
        unfold canInsertMember.
        rewrite member_rls_INSERT, !bool_decide_true by reflexivity.
        apply is_story_creator_spec. exists NEW. split_and!; [exact Hs|reflexivity..].
      * intros _. split; [done|]. intros _. exists NEW.
        split_and!; [exact Hs|reflexivity..|].
        assert (Hmem : is_member d1 (id NEW) user).
        { exists {| story_id := id NEW; user_id := user; role := owner |}.
          split; [exact Hm|repeat split]. }
        destruct (fetchStories_lists_memberships d1 user NEW Hs Hmem) as [n Hn].
        by destruct (fetchStories_listed d1 user NEW n Huq1 Hn) as (_ & _ & ->).
    + exists d, insufficient_privilege. split_and!; [done|done| |done].
      intros _. by split.
Qed.

Lemma handleSubmit_never_reports_success_witness :
  handleSubmit 20 "Alps" "Summer" false None 2 9 trip_db
  = (trip_db, Error_creating_story insufficient_privilege)
  ∧ ∃ d1, handleSubmit 20 "Alps" "Summer" true None 2 9 trip_db
          = (d1, Error_creating_story unique_violation)
          ∧ ∃ NEW, id NEW = 2%N ∧ (NEW, 1) ∈ fetchStories 20 d1.
Proof.
  assert (Hfresh : 2%N ∉ id <$> stories trip_db).
  { simpl. intros H%list_elem_of_singleton. discriminate H. }
  split.
  - destruct (handleSubmit_never_reports_success trip_db 20%N "Alps" "Summer" false None
                2%N 9%N trip_db_constraints) as (d1 & e & Heq & _ & Hpriv & _).
    destruct (Hpriv eq_refl) as [-> He]. by rewrite (He Hfresh) in Heq.
  - destruct (handleSubmit_never_reports_success trip_db 20%N "Alps" "Summer" true None
                2%N 9%N trip_db_constraints) as (d1 & e & Heq & _ & _ & Hpub).
    destruct (Hpub eq_refl) as [-> Hlisted].
    exists d1. split; [exact Heq|].
    destruct (Hlisted Hfresh) as (NEW & _ & Hid & _ & _ & _ & _ & Hin). by exists NEW.
Defined.

(** ** Profiles created at sign-up *)

(** [handle_new_user] gives a new user one profile, named after the
    [display_name] of the sign-up metadata and, when there is none,
    after the email address; it raises the not-null violation when
    both are missing and the unique violation when the user already has
    a profile; and it keeps [profiles.user_id] unique. *)
Theorem handle_new_user_profile NEW profiles :
  NoDup (p_user_id <$> profiles) →
  match handle_new_user NEW profiles with
  | profile_inserted profiles' =>
      (au_id NEW ∉ p_user_id <$> profiles)
      ∧ NoDup (p_user_id <$> profiles')
      ∧ ∃ name, profiles' = profiles ++ [{| p_user_id := au_id NEW; display_name := name;
                                            avatar_url := None |}]
                ∧ (raw_user_meta_data NEW !! "display_name" = Some name
                   ∨ (raw_user_meta_data NEW !! "display_name" = None
                      ∧ email NEW = Some name))
  | not_null_violation_display_name =>
      raw_user_meta_data NEW !! "display_name" = None ∧ email NEW = None
  | unique_violation_user_id =>
      au_id NEW ∈ p_user_id <$> profiles
      ∧ (raw_user_meta_data NEW !! "display_name" ≠ None ∨ email NEW ≠ None)
  end.
Proof.
  intros Hnd. unfold handle_new_user, COALESCE.
  destruct (raw_user_meta_data NEW !! "display_name") as [name|] eqn:Hmeta.
  - case_bool_decide as Hin.
    + split; [done|]. by left.
    + split_and!; [done|by apply NoDup_fmap_snoc|]. exists name. split; [done|by left].
  - destruct (email NEW) as [mail|] eqn:Hmail; [|done].
    case_bool_decide as Hin.
    + split; [done|]. by right.
    + split_and!; [done|by apply NoDup_fmap_snoc|]. exists mail. split; [done|by right].
Qed.

Lemma handle_new_user_profile_witness :
  handle_new_user {| au_id := 10; email := Some "ada@example.com";
                     raw_user_meta_data := ∅ |} []
  = profile_inserted [{| p_user_id := 10; display_name := "ada@example.com";
                         avatar_url := None |}].
Proof.
  pose proof (handle_new_user_profile
                {| au_id := 10; email := Some "ada@example.com"; raw_user_meta_data := ∅ |}
                [] NoDup_nil_2) as H.
  destruct (handle_new_user _ _) as [ps| |] eqn:Heq.
  - destruct H as (_ & _ & name & -> & [Hmeta|[_ Hmail]]).
    + simpl in Hmeta. by rewrite lookup_empty in Hmeta.
    + simpl in Hmail. by injection Hmail as <-.
  - by destruct H as [_ Hmail].
  - destruct H as [Hin _]. by apply elem_of_nil in Hin.
Defined.

(** ** The owner trigger on arbitrary tables *)

(** The trigger function never fails and never touches [stories]; it
    keeps every membership row and the uniqueness of the pairs; when
    the creator already has a row on the story, of either role, it
    changes nothing (that row is not turned into an owner row); and
    running it a second time changes nothing. *)
Theorem owner_trigger_on_conflict_does_nothing NEW d :
  stories (handle_new_story_owner_membership NEW d) = stories d
  ∧ (∀ m, m ∈ story_members d → m ∈ story_members (handle_new_story_owner_membership NEW d))
  ∧ (unique_membership d → unique_membership (handle_new_story_owner_membership NEW d))
  ∧ (is_member d (id NEW) (created_by NEW) → handle_new_story_owner_membership NEW d = d)
  ∧ (¬ is_member d (id NEW) (created_by NEW) →
     story_members (handle_new_story_owner_membership NEW d)
     = story_members d ++ [{| story_id := id NEW; user_id := created_by NEW; role := owner |}])
  ∧ handle_new_story_owner_membership NEW (handle_new_story_owner_membership NEW d)
    = handle_new_story_owner_membership NEW d.
Proof.
  split_and!.
  - apply handle_new_story_owner_membership_stories.
  - intros m. apply handle_new_story_owner_membership_mono.
  - apply handle_new_story_owner_membership_unique.
  - intros (m & Hm & Hsid & Huid). unfold handle_new_story_owner_membership.
    rewrite bool_decide_true; [done|].
    apply list_elem_of_fmap. exists m. split; [|done].
    unfold member_key. simpl. congruence.
  - intros Hnot. unfold handle_new_story_owner_membership.
    rewrite bool_decide_false; [done|].
    intros (m & Hkey & Hm)%list_elem_of_fmap. apply Hnot. exists m.
    unfold member_key in Hkey. simpl in Hkey. split; [done|]. split; congruence.
  - apply handle_new_story_owner_membership_idem.
Qed.

(** ** Deleting a story and using its id again *)

(** After an owner has deleted a story, its id is free: any user can
    create a story under that id, and of the rows of [story_members] on
    that id only the new creator's owner row exists, so a member of the
    deleted story gets no access to the new one by the old membership. *)
Theorem deleted_id_reused_without_old_members d caller s U NEW :
  constraints d → s ∈ stories d → is_owner d (id s) caller →
  id NEW = id s → created_by NEW = U →
  ∃ d2, insert_stories schema U NEW (delete_stories schema caller (id s) d).1 = Ok d2
        ∧ NEW ∈ stories d2
        ∧ (∀ m, m ∈ story_members d2 → story_id m = id s →
                m = {| story_id := id s; user_id := U; role := owner |})
        ∧ (∀ anyone, is_public NEW = false → anyone ≠ U → canView d2 anyone NEW = false).
Proof.
  intros (Hpk & Huq & Hfk) Hs Hown Hid HU.
  rewrite owner_delete_cascades_eq by done. simpl.
  destruct (without_story_constraints d (id s) (conj Hpk (conj Huq Hfk)))
    as (_ & _ & Hfk1).
  assert (Hfresh : id NEW ∉ id <$> stories (without_story (id s) d)).
  { intros (t & Heq & [_ Hne]%without_story_stories)%list_elem_of_fmap. congruence. }
  destruct (insert_stories_returning_as_creator _ U NEW Hfk1 HU Hfresh) as [Hins _].
  set (d2 := handle_new_story_owner_membership NEW _) in *.
  destruct (insert_stories_creator_is_owner _ U NEW d2 Hfk1 Hins) as (Hs2 & Hm2 & Honly).
  exists d2. split_and!; [done|done| |].
  - intros m Hm Hsid. rewrite <- Hid. apply Honly; [done|congruence].
  - intros anyone Hprivate Hne. apply not_true_is_false.
    intros [Hpub|(m & Hm & Hsid & Huid)]%canView_iff; [congruence|].
    specialize (Honly m Hm Hsid). subst m. simpl in Huid. congruence.
Qed.

Lemma deleted_id_reused_without_old_members_witness :
  ∃ d2, insert_stories schema 40 (sample_story 1 40 false)
          (delete_stories schema 10 1 crowded_db).1 = Ok d2
        ∧ sample_story 1 40 false ∈ stories d2
        ∧ (∀ m, m ∈ story_members d2 → story_id m = 1%N →
                m = {| story_id := 1; user_id := 40; role := owner |})
        ∧ (∀ anyone, is_public (sample_story 1 40 false) = false → anyone ≠ 40%N →
                     canView d2 anyone (sample_story 1 40 false) = false).
Proof.
  apply (deleted_id_reused_without_old_members crowded_db 10%N (sample_story 1 10 false)
           40%N (sample_story 1 40 false)).
  - split_and!.
    + apply NoDup_singleton.
    + unfold unique_membership. apply (bool_decide_unpack _). vm_compute. exact I.
    + intros m Hm. unfold crowded_db in Hm. simpl in Hm.
      repeat (apply elem_of_cons in Hm as [->|Hm]; [apply list_elem_of_here|]).
      by apply elem_of_nil in Hm.
  - apply list_elem_of_here.
  - exists {| story_id := 1; user_id := 10; role := owner |}.
    split; [apply list_elem_of_here|repeat split].
  - reflexivity.
  - reflexivity.
Defined.
